(** * The Video model of the federation server (server/models/video.js)

    A shallow embedding of the Sequelize model [Video]: its instance
    methods (naming, ownership, magnet URI, JSON representations), its
    hooks (beforeValidate, beforeCreate, afterDestroy) and the search
    dispatcher.  External collaborators (the file system, ffmpeg, the
    torrent encoder, the magnet codec, the storage engine) are taken as an
    oracle record; the calls the code issues to them are recorded in a
    trace. *)

From Stdlib Require Import ZArith Strings.Ascii Strings.String Strings.Byte.
From stdpp Require Import base option list strings gmap.

Set Warnings "-register-all".

(** ** JavaScript values that appear in the representations *)

Inductive JsValue : Type :=
| JsUndefined
| JsNull
| JsBool (b : bool)
| JsNum (z : Z)
| JsStr (s : string)
| JsDate (t : Z)
| JsError (msg : string)
| JsArr (l : list JsValue).

(** An object literal: its keys in the order they are written. *)
Definition JsObject : Type := list (string * JsValue).

Fixpoint js_get (k : string) (o : JsObject) : option JsValue :=
  match o with
  | [] => None
  | (k', x) :: o' => if String.eqb k k' then Some x else js_get k o'
  end.

Definition js_keys (o : JsObject) : list string := map fst o.

Definition js_omit (k : string) (o : JsObject) : JsObject :=
  filter (fun kv => fst kv ≠ k) o.

(** Errors handed to a node callback, or thrown. *)
Inductive Error : Type :=
| IOError (msg : string)
| ValidationError (msg : string)
| TypeError (msg : string).

(** ** Data model *)

Record PodT : Type := { Pod_host : string }.

Record AuthorT : Type := {
  Author_name : string;
  Author_Pod : option PodT
}.

Record TagT : Type := { Tag_name : string }.

(** A Video instance.  [remoteId] is a nullable UUID column: [None] is
    JavaScript's [null]. *)
Record Video : Type := {
  id : string;
  name : string;
  extname : string;
  remoteId : option string;
  description : string;
  infoHash : string;
  duration : Z;
  createdAt : Z;
  updatedAt : Z;
  Author : AuthorT;
  Tags : list TagT
}.

(** video.set('infoHash', h) *)
Definition set_infoHash (h : string) (v : Video) : Video :=
  {| id := id v; name := name v; extname := extname v;
     remoteId := remoteId v; description := description v;
     infoHash := h; duration := duration v;
     createdAt := createdAt v; updatedAt := updatedAt v;
     Author := Author v; Tags := Tags v |}.

(** ** Ownership and naming *)

(** this.remoteId === null *)
Definition isOwned (v : Video) : bool :=
  match remoteId v with
  | None => true
  | Some _ => false
  end.

(** String conversion of [this.remoteId] in [this.remoteId + ext]. *)
Definition remoteId_toString (r : option string) : string :=
  match r with
  | None => "null"
  | Some s => s
  end.

Definition getVideoFilename (v : Video) : string :=
  if isOwned v then id v +:+ extname v
  else remoteId_toString (remoteId v) +:+ extname v.

Definition getThumbnailName (v : Video) : string :=
  id v +:+ ".jpg".

Definition getPreviewName (v : Video) : string :=
  let extension := ".jpg" in
  if isOwned v then id v +:+ extension
  else remoteId_toString (remoteId v) +:+ extension.

Definition getTorrentName (v : Video) : string :=
  let extension := ".torrent" in
  if isOwned v then id v +:+ extension
  else remoteId_toString (remoteId v) +:+ extension.

(** ** Configuration and external collaborators *)

(** The entries of initializers/constants that this file reads.  The
    module is not part of the model: its values are parameters.  [PORT] is
    the text that string concatenation yields for the configured port. *)
Record Constants : Type := {
  CONFIG_STORAGE_VIDEOS_DIR : string;
  CONFIG_STORAGE_TORRENTS_DIR : string;
  CONFIG_STORAGE_THUMBNAILS_DIR : string;
  CONFIG_STORAGE_PREVIEWS_DIR : string;
  CONFIG_WEBSERVER_WS : string;
  CONFIG_WEBSERVER_HOSTNAME : string;
  CONFIG_WEBSERVER_PORT : string;
  CONFIG_WEBSERVER_URL : string;
  CONFIG_WEBSERVER_HOST : string;
  STATIC_PATHS_WEBSEED : string;
  STATIC_PATHS_TORRENTS : string;
  STATIC_PATHS_THUMBNAILS : string;
  REMOTE_SCHEME_HTTP : string;
  REMOTE_SCHEME_WS : string;
  THUMBNAILS_SIZE : string
}.

(** The object handed to magnetUtil.encode. *)
Record MagnetHash : Type := {
  mh_xs : string;
  mh_announce : string;
  mh_urlList : list string;
  mh_infoHash : string;
  mh_name : string
}.

(** The options of createTorrent. *)
Record TorrentOptions : Type := {
  to_announceList : list (list string);
  to_urlList : list string
}.

(** The options of ffmpeg's thumbnail(); [th_size] is absent when
    generateImage is called without a size. *)
Record ThumbnailOptions : Type := {
  th_filename : string;
  th_count : Z;
  th_folder : string;
  th_size : option string
}.

(** A where-condition of the storage query language. *)
Inductive Cond : Type :=
| CondEq (x : option string)        (* field: x   (x may be undefined) *)
| CondLike (pattern : string)       (* field: { $like: pattern } *)
| CondInLiteral (sql : string).     (* field: { $in: literal(sql) } *)

Record PodInclude : Type := {
  pi_required : bool;
  pi_where : option (gmap string Cond)
}.

Record AuthorInclude : Type := {
  ai_include : list PodInclude;
  ai_where : option (gmap string Cond)
}.

Record TagInclude : Type := {
  ti_where : option (gmap string Cond)
}.

Record Query : Type := {
  q_where : gmap string Cond;
  q_offset : Z;
  q_limit : Z;
  q_distinct : bool;
  q_order : list (list string);
  q_include : AuthorInclude * TagInclude
}.

(** The answers of the external collaborators: the libraries the file
    requires (create-torrent, parse-torrent, fs, path, fluent-ffmpeg,
    magnet-uri, sequelize and its validators) and the helpers of the
    repository that are not part of this model. *)
Record Env : Type := {
  createTorrent_result : string → TorrentOptions → Error + list byte;
  parseTorrent_infoHash : list byte → string;
  fs_writeFile_result : string → list byte → option Error;
  fs_readFile_result : string → Error + list byte;
  fs_unlink_result : string → option Error;
  ffmpeg_thumbnail_result : string → ThumbnailOptions → option Error;
  pathUtils_join : string → string → string;
  magnetUtil_encode : MagnetHash → Error + string;
  magnetUtil_decode_infoHash : string → option string;
  sequelize_escape : string → string;
  sequelize_findAndCountAll : Query → Error + (list Video * nat);
  sequelize_validate_rejects : bool;
  modelUtils_getSort : string → list string;
  validator_isUUID4 : string → bool;
  isVideoNameValid : string → bool;
  isVideoDescriptionValid : string → bool;
  isVideoDurationValid : Z → bool;
  friends_broadcast_result : JsObject → option Error
}.

(** ** Magnet descriptor *)

Section Methods.

Variable C : Constants.
Variable env : Env.

Definition generateMagnetUri (v : Video) : Error + string :=
  match
    (if isOwned v then
       inr (CONFIG_WEBSERVER_URL C,
            CONFIG_WEBSERVER_WS C +:+ "://" +:+ CONFIG_WEBSERVER_HOSTNAME C
              +:+ ":" +:+ CONFIG_WEBSERVER_PORT C)
     else
       match Author_Pod (Author v) with
       | None => inl (TypeError "Cannot read property 'host' of null")
       | Some pod =>
           inr (REMOTE_SCHEME_HTTP C +:+ "://" +:+ Pod_host pod,
                REMOTE_SCHEME_WS C +:+ "://" +:+ Pod_host pod)
       end)
  with
  | inl e => inl e
  | inr (baseUrlHttp, baseUrlWs) =>
      let xs := baseUrlHttp +:+ STATIC_PATHS_TORRENTS C +:+ getTorrentName v in
      let announce := baseUrlWs +:+ "/tracker/socket" in
      let urlList := [ baseUrlHttp +:+ STATIC_PATHS_WEBSEED C +:+ getVideoFilename v ] in
      let magnetHash :=
        {| mh_xs := xs; mh_announce := announce; mh_urlList := urlList;
           mh_infoHash := infoHash v; mh_name := name v |} in
      magnetUtil_encode env magnetHash
  end.

(** ** Representations *)

(** map(this.Tags, 'name') *)
Definition tag_names (v : Video) : JsValue :=
  JsArr (map (fun t => JsStr (Tag_name t)) (Tags v)).

Definition toFormatedJSON (v : Video) : Error + JsObject :=
  let podHost :=
    match Author_Pod (Author v) with
    | Some pod => Pod_host pod
    | None => CONFIG_WEBSERVER_HOST C
    end in
  match generateMagnetUri v with
  | inl e => inl e
  | inr magnetUri =>
      inr [ ("id", JsStr (id v));
            ("name", JsStr (name v));
            ("description", JsStr (description v));
            ("podHost", JsStr podHost);
            ("isLocal", JsBool (isOwned v));
            ("magnetUri", JsStr magnetUri);
            ("author", JsStr (Author_name (Author v)));
            ("duration", JsNum (duration v));
            ("tags", tag_names v);
            ("thumbnailPath", JsStr (STATIC_PATHS_THUMBNAILS C +:+ "/" +:+ getThumbnailName v));
            ("createdAt", JsDate (createdAt v));
            ("updatedAt", JsDate (updatedAt v)) ]
  end.

Definition toUpdateRemoteJSON (v : Video) : JsObject :=
  [ ("name", JsStr (name v));
    ("description", JsStr (description v));
    ("infoHash", JsStr (infoHash v));
    ("remoteId", JsStr (id v));
    ("author", JsStr (Author_name (Author v)));
    ("duration", JsNum (duration v));
    ("tags", tag_names v);
    ("createdAt", JsDate (createdAt v));
    ("updatedAt", JsDate (updatedAt v));
    ("extname", JsStr (extname v)) ].

End Methods.

(** ** Effects: the calls issued to the collaborators *)

Inductive Call : Type :=
| CreateTorrent (videoPath : string) (options : TorrentOptions)
| FsWriteFile (path : string) (data : list byte)
| FsReadFile (path : string)
| FsUnlink (path : string)
| FfmpegThumbnail (videoPath : string) (options : ThumbnailOptions)
| FriendsRemoveVideo (params : JsObject)
| LoggerError (msg : string).

(** The instance a hook or method runs on (hooks mutate it) and the calls
    issued so far, oldest first. *)
Record State : Type := {
  st_video : Video;
  st_calls : list Call
}.

Definition M (A : Type) : Type := State → A * State.

#[global] Instance M_ret : MRet M := λ A x s, (x, s).
#[global] Instance M_bind : MBind M :=
  λ A B f m s, let '(x, s') := m s in f x s'.

Definition get_video : M Video := λ s, (st_video s, s).

Definition modify_video (f : Video → Video) : M unit :=
  λ s, (tt, {| st_video := f (st_video s); st_calls := st_calls s |}).

Definition call (c : Call) : M unit :=
  λ s, (tt, {| st_video := st_video s; st_calls := st_calls s ++ [c] |}).

(** What a node callback receives: [callback(err)] or
    [callback(null, result)]. *)
Definition Outcome : Type := Error + JsValue.

Definition outcome_of_err (r : option Error) : Outcome :=
  match r with
  | Some e => inl e
  | None => inr JsUndefined
  end.

(** ** async/parallel

    Every task is started, in the order of the array.  The final callback
    receives the error of the task that is the first to complete with one,
    or else the array of results.  [sched] is the order in which the tasks
    complete (task numbers; tasks it leaves out complete afterwards, in
    the order of the array).

    [parallel] runs every task to its end before the next one.  It gives
    the outcome of the group, and the state once all the tasks have run to
    completion, the calls of one task next to one another.  When no task
    fails that is the state in which the final callback is called, up to
    the order of the calls; it is so too when every task issues its one
    call as it is started, as the unlinks of afterDestroy do.  The first
    task of beforeCreate goes through several operations: the order of its
    calls among those of the image tasks, and the state in which the final
    callback is called with an error while other tasks are still at work,
    are followed callback by callback in the section on the event loop
    below. *)

Fixpoint run_tasks (tasks : list (M Outcome)) : M (list Outcome) :=
  match tasks with
  | [] => mret []
  | t :: ts => r ← t; rs ← run_tasks ts; mret (r :: rs)
  end.

Fixpoint first_error (order : list nat) (rs : list Outcome) : option Error :=
  match order with
  | [] => None
  | i :: order' =>
      match rs !! i with
      | Some (inl e) => Some e
      | _ => first_error order' rs
      end
  end.

Fixpoint results_of (rs : list Outcome) : list JsValue :=
  match rs with
  | [] => []
  | inr x :: rs' => x :: results_of rs'
  | inl _ :: rs' => JsUndefined :: results_of rs'
  end.

Definition parallel (sched : list nat) (tasks : list (M Outcome)) : M Outcome :=
  rs ← run_tasks tasks;
  match first_error (sched ++ seq 0 (length rs)) rs with
  | Some e => mret (inl e)
  | None => mret (inr (JsArr (results_of rs)))
  end.

(** ** Validation *)

Definition is_lower_hex (c : ascii) : bool :=
  let n := nat_of_ascii c in
  (Nat.leb 48 n && Nat.leb n 57) || (Nat.leb 97 n && Nat.leb n 102).

(** Modelled from the spec: customVideosValidators.isVideoInfoHashValid
    (helpers/custom-validators is not part of the model).  The spec
    requires an info-hash to be well-formed: 40 hexadecimal characters,
    /^[0-9a-f]{40}$/. *)
Definition isVideoInfoHashValid (value : string) : bool :=
  Nat.eqb (String.length value) 40 && forallb is_lower_hex (list_ascii_of_string value).

Definition placeholder_infoHash : string :=
  "0123456789abcdef0123456789abcdef01234567".

(** The strings that /^[0-9a-f]{40}$/ matches. *)
Definition hex_digits : list ascii := list_ascii_of_string "0123456789abcdef".

Definition matches_infoHash_pattern (s : string) : Prop :=
  ∃ cs : list ascii,
    s = string_of_list_ascii cs ∧ length cs = 40 ∧ Forall (λ c, c ∈ hex_digits) cs.

(** The text of a digest: two lowercase hexadecimal digits for each byte. *)
Definition hex_digit (n : nat) : ascii := nth n hex_digits "0"%char.

Definition hex_of_byte (b : byte) : string :=
  let n := Byte.to_nat b in
  String (hex_digit (n / 16)) (String (hex_digit (n mod 16)) EmptyString).

Fixpoint hex_of_bytes (bs : list byte) : string :=
  match bs with
  | [] => EmptyString
  | b :: bs' => hex_of_byte b +:+ hex_of_bytes bs'
  end.

(** parse-torrent gives as info-hash the SHA-1 digest of the info
    dictionary of the torrent, twenty bytes, in hexadecimal.  The digest of
    a torrent is taken not to be the sequence 01 23 45 67 89 ab cd ef ... that
    the placeholder spells. *)
Definition parseTorrent_yields_digests (env : Env) : Prop :=
  ∀ torrent : list byte,
    ∃ digest : list byte,
      length digest = 20
      ∧ parseTorrent_infoHash env torrent = hex_of_bytes digest
      ∧ hex_of_bytes digest ≠ placeholder_infoHash.

Section Hooks.

Variable C : Constants.
Variable env : Env.

(** The [validate] entries of the model definition, in the order of the
    attributes; each yields the message of the error it throws. *)
Definition validation_errors (v : Video) : list string :=
  (if validator_isUUID4 env (id v) then [] else ["Validation isUUID failed"])
  ++ (if isVideoNameValid env (name v) then [] else ["Video name is not valid."])
  ++ (match remoteId v with
      | None => []
      | Some r => if validator_isUUID4 env r then [] else ["Validation isUUID failed"]
      end)
  ++ (if isVideoDescriptionValid env (description v) then [] else ["Video description is not valid."])
  ++ (if isVideoInfoHashValid (infoHash v) then [] else ["Video info hash is not valid."])
  ++ (if isVideoDurationValid env (duration v) then [] else ["Video duration is not valid."]).

(** video.validate(): runs the validators of the model on the instance (not
    its hooks) and settles with the messages collected, if any. *)
Definition validate : M (option string) :=
  v ← get_video;
  match validation_errors v with
  | [] => mret None
  | msg :: msgs => mret (Some (String.concat ", " (msg :: msgs)))
  end.

(** video.validate().asCallback(callback).  The callback receives a
    validation failure as its error when the promise of validate() is
    rejected, and as its result when the promise is resolved with it, which
    is what Sequelize 3 does (the version that honours the classMethods and
    instanceMethods this file declares).  [sequelize_validate_rejects] says
    which of the two the storage library does. *)
Definition validate_asCallback : M Outcome :=
  r ← validate;
  match r with
  | None => mret (inr JsNull)
  | Some msg =>
      if sequelize_validate_rejects env then mret (inl (ValidationError msg))
      else mret (inr (JsError msg))
  end.

(** *** beforeValidate *)

Definition beforeValidate : M Outcome :=
  video ← get_video;
  (if isOwned video then
     (* 40 hexa length *)
     modify_video (set_infoHash placeholder_infoHash)
   else mret tt);;
  mret (inr JsUndefined).

(** *** Artifact generation *)

(** generateImage (video, videoPath, folder, imageName, size, callback):
    [size] is [None] for the call with five arguments, where the callback
    is found in the place of the size and [options.size] is not set. *)
Definition generateImage (videoPath folder imageName : string)
    (size : option string) : M Outcome :=
  let options :=
    {| th_filename := imageName; th_count := 1; th_folder := folder;
       th_size := size |} in
  call (FfmpegThumbnail videoPath options);;
  match ffmpeg_thumbnail_result env videoPath options with
  | Some err => mret (inl err)
  | None => mret (inr (JsStr imageName))
  end.

Definition createPreview (videoPath : string) : M Outcome :=
  video ← get_video;
  generateImage videoPath (CONFIG_STORAGE_PREVIEWS_DIR C) (getPreviewName video) None.

Definition createThumbnail (videoPath : string) : M Outcome :=
  video ← get_video;
  generateImage videoPath (CONFIG_STORAGE_THUMBNAILS_DIR C) (getThumbnailName video)
    (Some (THUMBNAILS_SIZE C)).

(** The [options] of the first task of beforeCreate. *)
Definition createTorrent_options (video : Video) : TorrentOptions :=
  {| to_announceList :=
       [ [ CONFIG_WEBSERVER_WS C +:+ "://" +:+ CONFIG_WEBSERVER_HOSTNAME C
             +:+ ":" +:+ CONFIG_WEBSERVER_PORT C +:+ "/tracker/socket" ] ];
     to_urlList :=
       [ CONFIG_WEBSERVER_URL C +:+ STATIC_PATHS_WEBSEED C +:+ getVideoFilename video ] |}.

(** The first task of beforeCreate: encode the torrent, write it, commit
    its info-hash on the instance and validate the instance again. *)
Definition createTorrentTask (videoPath : string) : M Outcome :=
  video ← get_video;
  let options := createTorrent_options video in
  call (CreateTorrent videoPath options);;
  match createTorrent_result env videoPath options with
  | inl err => mret (inl err)
  | inr torrent =>
      video ← get_video;
      let torrentPath := CONFIG_STORAGE_TORRENTS_DIR C +:+ getTorrentName video in
      call (FsWriteFile torrentPath torrent);;
      match fs_writeFile_result env torrentPath torrent with
      | Some err => mret (inl err)
      | None =>
          let parsedTorrent_infoHash := parseTorrent_infoHash env torrent in
          modify_video (set_infoHash parsedTorrent_infoHash);;
          validate_asCallback
      end
  end.

(** *** beforeCreate *)

Definition beforeCreate_tasks (video : Video) : list (M Outcome) :=
  if isOwned video then
    let videoPath :=
      pathUtils_join env (CONFIG_STORAGE_VIDEOS_DIR C) (getVideoFilename video) in
    [ createTorrentTask videoPath;
      createThumbnail videoPath;
      createPreview videoPath ]
  else [].

Definition beforeCreate (sched : list nat) : M Outcome :=
  video ← get_video;
  if isOwned video then parallel sched (beforeCreate_tasks video)
  else mret (inr JsUndefined).

(** Creating a record: the storage layer runs beforeValidate, the
    validation and beforeCreate in this order, and gives up at the first of
    them that reports an error. *)
Definition createVideo (sched : list nat) : M Outcome :=
  r ← beforeValidate;
  match r with
  | inl e => mret (inl e)
  | inr _ =>
      r ← validate;
      match r with
      | Some msg => mret (inl (ValidationError msg))
      | None => beforeCreate sched
      end
  end.

(** *** Destruction *)

Definition removeThumbnail : M Outcome :=
  video ← get_video;
  let path := CONFIG_STORAGE_THUMBNAILS_DIR C +:+ getThumbnailName video in
  call (FsUnlink path);;
  mret (outcome_of_err (fs_unlink_result env path)).

Definition removeFile : M Outcome :=
  video ← get_video;
  let path := CONFIG_STORAGE_VIDEOS_DIR C +:+ getVideoFilename video in
  call (FsUnlink path);;
  mret (outcome_of_err (fs_unlink_result env path)).

Definition removeTorrent : M Outcome :=
  video ← get_video;
  let path := CONFIG_STORAGE_TORRENTS_DIR C +:+ getTorrentName video in
  call (FsUnlink path);;
  mret (outcome_of_err (fs_unlink_result env path)).

Definition removePreview : M Outcome :=
  video ← get_video;
  (* Same name than video thumnail *)
  let path := CONFIG_STORAGE_PREVIEWS_DIR C +:+ getPreviewName video in
  call (FsUnlink path);;
  mret (outcome_of_err (fs_unlink_result env path)).

(** Modelled from the spec: friends.removeVideoToFriends (lib/friends is
    not part of the model).  The peer directory takes the removal payload
    for broadcast, fire and forget: it returns nothing to its caller, and
    a broadcast that fails is logged only. *)
Definition removeVideoToFriends (params : JsObject) : M unit :=
  call (FriendsRemoveVideo params);;
  match friends_broadcast_result env params with
  | Some _ => call (LoggerError "Cannot broadcast the removal to friends")
  | None => mret tt
  end.

(** The last task of afterDestroy for an owned video. *)
Definition notifyFriendsTask : M Outcome :=
  video ← get_video;
  let params := [ ("name", JsStr (name video)); ("remoteId", JsStr (id video)) ] in
  removeVideoToFriends params;;
  mret (inr JsUndefined).

Definition afterDestroy_tasks (video : Video) : list (M Outcome) :=
  [ removeThumbnail ]
  ++ (if isOwned video then
        [ removeFile; removeTorrent; removePreview; notifyFriendsTask ]
      else []).

Definition afterDestroy (sched : list nat) : M Outcome :=
  video ← get_video;
  parallel sched (afterDestroy_tasks video).

(** *** The representation sent when a video is added *)

(** thumbnailData.toString('binary'): one character per byte. *)
Definition toString_binary (data : list byte) : string :=
  string_of_list_byte data.

(** Buffer.from(thumbnailData, 'binary') *)
Definition Buffer_from_binary (s : string) : list byte :=
  list_byte_of_string s.

Definition toAddRemoteJSON : M (Error + JsObject) :=
  self ← get_video;
  (* Get thumbnail data to send to the other pod *)
  let thumbnailPath :=
    pathUtils_join env (CONFIG_STORAGE_THUMBNAILS_DIR C) (getThumbnailName self) in
  call (FsReadFile thumbnailPath);;
  match fs_readFile_result env thumbnailPath with
  | inl err =>
      call (LoggerError "Cannot read the thumbnail of the video");;
      mret (inl err)
  | inr thumbnailData =>
      let remoteVideo :=
        [ ("name", JsStr (name self));
          ("description", JsStr (description self));
          ("infoHash", JsStr (infoHash self));
          ("remoteId", JsStr (id self));
          ("author", JsStr (Author_name (Author self)));
          ("duration", JsNum (duration self));
          ("thumbnailData", JsStr (toString_binary thumbnailData));
          ("tags", tag_names self);
          ("createdAt", JsDate (createdAt self));
          ("updatedAt", JsDate (updatedAt self));
          ("extname", JsStr (extname self)) ] in
      mret (inr remoteVideo)
  end.

(** Creating the thumbnail for a remote video. *)
Definition generateThumbnailFromData (thumbnailData : string) : M Outcome :=
  video ← get_video;
  let thumbnailName := getThumbnailName video in
  let thumbnailPath := CONFIG_STORAGE_THUMBNAILS_DIR C +:+ thumbnailName in
  let data := Buffer_from_binary thumbnailData in
  call (FsWriteFile thumbnailPath data);;
  match fs_writeFile_result env thumbnailPath data with
  | Some err => mret (inl err)
  | None => mret (inr (JsStr thumbnailName))
  end.

End Hooks.

(** ** Search dispatcher *)

Definition dquote : string := String (ascii_of_nat 34) EmptyString.

Definition quoted (s : string) : string := dquote +:+ s +:+ dquote.

(** The literal subquery of the tags branch, up to the escaped pattern. *)
Definition tags_subquery_prefix : string :=
  "(SELECT " +:+ quoted "VideoTags" +:+ "." +:+ quoted "videoId"
  +:+ " FROM " +:+ quoted "Tags"
  +:+ " INNER JOIN " +:+ quoted "VideoTags"
  +:+ " ON " +:+ quoted "Tags" +:+ "." +:+ quoted "id"
  +:+ " = " +:+ quoted "VideoTags" +:+ "." +:+ quoted "tagId"
  +:+ " WHERE name LIKE ".

(** The locals of the dispatcher that its branches assign. *)
Record SearchLocals : Type := {
  sl_where : gmap string Cond;
  sl_podInclude : PodInclude;
  sl_authorWhere : option (gmap string Cond)
}.

(** [object[field] = x] on an object literal.  The assignment adds an own
    property, except under the name __proto__: there it replaces the
    prototype of the object and adds no property of its own. *)
Definition js_assign {A : Type} (field : string) (x : A) (object : gmap string A)
  : gmap string A :=
  if String.eqb field "__proto__" then object else <[field := x]> object.

Section Search.

Variable env : Env.

Definition search_dispatch (value field : string) : SearchLocals :=
  let podInclude := {| pi_required := false; pi_where := None |} in
  let authorWhere : option (gmap string Cond) := None in
  let where_ : gmap string Cond := ∅ in
  (* Make an exact search with the magnet *)
  if String.eqb field "magnetUri" then
    let infoHash := magnetUtil_decode_infoHash env value in
    {| sl_where := <["infoHash" := CondEq infoHash]> where_;
       sl_podInclude := podInclude; sl_authorWhere := authorWhere |}
  else if String.eqb field "tags" then
    let escapedValue := sequelize_escape env ("%" +:+ value +:+ "%") in
    {| sl_where :=
         {[ "id" := CondInLiteral (tags_subquery_prefix +:+ escapedValue +:+ ")") ]};
       sl_podInclude := podInclude; sl_authorWhere := authorWhere |}
  else if String.eqb field "host" then
    {| sl_where := where_;
       sl_podInclude :=
         {| pi_required := true;
            pi_where := Some {[ "host" := CondLike ("%" +:+ value +:+ "%") ]} |};
       sl_authorWhere := authorWhere |}
  else if String.eqb field "author" then
    {| sl_where := where_;
       sl_podInclude := podInclude;
       sl_authorWhere := Some {[ "name" := CondLike ("%" +:+ value +:+ "%") ]} |}
  else
    {| sl_where := js_assign field (CondLike ("%" +:+ value +:+ "%")) where_;
       sl_podInclude := podInclude; sl_authorWhere := authorWhere |}.

(** The query handed to findAndCountAll.  [authorInclude.include] holds a
    reference to [podInclude], so what the host branch assigns to
    [podInclude] afterwards is what the author include carries. *)
Definition search_query (value field : string) (start count : Z) (sort : string) : Query :=
  let l := search_dispatch value field in
  let authorInclude :=
    {| ai_include := [ sl_podInclude l ]; ai_where := sl_authorWhere l |} in
  let tagInclude := {| ti_where := None |} in
  {| q_where := sl_where l;
     q_offset := start;
     q_limit := count;
     q_distinct := true; (* For the count, a video can have many tags *)
     q_order := [ modelUtils_getSort env sort; [ "Tag"; "name"; "ASC" ] ];
     q_include := (authorInclude, tagInclude) |}.

Definition searchAndPopulateAuthorAndPodAndTags
    (value field : string) (start count : Z) (sort : string)
  : Error + (list Video * nat) :=
  match sequelize_findAndCountAll env (search_query value field start count sort) with
  | inl err => inl err
  | inr (rows, total) => inr (rows, total)
  end.

End Search.

(** *** What the includes mean to the storage layer

    An include that is [required], or that carries a where-clause without
    saying whether it is required, is an inner join: a row is kept only if
    the joined entity exists and satisfies the where-clause of the include.
    Any other include keeps every row.  [sql_like text pattern] is the LIKE
    of the storage engine. *)

Section Joins.

Variable sql_like : string → string → bool.

Definition cond_holds (c : Cond) (text : string) : bool :=
  match c with
  | CondEq x => bool_decide (x = Some text)
  | CondLike pattern => sql_like text pattern
  | CondInLiteral _ => false
  end.

Definition column_holds (w : option (gmap string Cond)) (column text : string) : bool :=
  match w with
  | None => true
  | Some w =>
      match w !! column with
      | Some c => cond_holds c text
      | None => true
      end
  end.

Definition podInclude_admits (pi : PodInclude) (a : AuthorT) : bool :=
  if pi_required pi then
    match Author_Pod a with
    | None => false
    | Some pod => column_holds (pi_where pi) "host" (Pod_host pod)
    end
  else true.

Definition authorInclude_admits (ai : AuthorInclude) (a : AuthorT) : bool :=
  column_holds (ai_where ai) "name" (Author_name a)
  && forallb (λ pi, podInclude_admits pi a) (ai_include ai).

Definition joins_admit (q : Query) (v : Video) : bool :=
  authorInclude_admits (fst (q_include q)) (Author v).

End Joins.

(** The calls issued by the tasks of afterDestroy, in the order in which
    the tasks are started. *)
Definition afterDestroy_calls (C : Constants) (env : Env) (v : Video) : list Call :=
  let payload := [ ("name", JsStr (name v)); ("remoteId", JsStr (id v)) ] in
  FsUnlink (CONFIG_STORAGE_THUMBNAILS_DIR C +:+ getThumbnailName v)
  :: (if isOwned v then
        [ FsUnlink (CONFIG_STORAGE_VIDEOS_DIR C +:+ getVideoFilename v);
          FsUnlink (CONFIG_STORAGE_TORRENTS_DIR C +:+ getTorrentName v);
          FsUnlink (CONFIG_STORAGE_PREVIEWS_DIR C +:+ getPreviewName v);
          FriendsRemoveVideo payload ]
        ++ match friends_broadcast_result env payload with
           | Some _ => [ LoggerError "Cannot broadcast the removal to friends" ]
           | None => []
           end
      else []).

(** The same collaborators, with the broadcast to the peers ending as [b]. *)
Definition with_broadcast_result (b : option Error) (env : Env) : Env :=
  {| createTorrent_result := createTorrent_result env;
     parseTorrent_infoHash := parseTorrent_infoHash env;
     fs_writeFile_result := fs_writeFile_result env;
     fs_readFile_result := fs_readFile_result env;
     fs_unlink_result := fs_unlink_result env;
     ffmpeg_thumbnail_result := ffmpeg_thumbnail_result env;
     pathUtils_join := pathUtils_join env;
     magnetUtil_encode := magnetUtil_encode env;
     magnetUtil_decode_infoHash := magnetUtil_decode_infoHash env;
     sequelize_escape := sequelize_escape env;
     sequelize_findAndCountAll := sequelize_findAndCountAll env;
     sequelize_validate_rejects := sequelize_validate_rejects env;
     modelUtils_getSort := modelUtils_getSort env;
     validator_isUUID4 := validator_isUUID4 env;
     isVideoNameValid := isVideoNameValid env;
     isVideoDescriptionValid := isVideoDescriptionValid env;
     isVideoDurationValid := isVideoDurationValid env;
     friends_broadcast_result := λ _, b |}.

(** The same collaborators, with every ffmpeg run ending with the error
    [err]. *)
Definition without_ffmpeg (err : Error) (env : Env) : Env :=
  {| createTorrent_result := createTorrent_result env;
     parseTorrent_infoHash := parseTorrent_infoHash env;
     fs_writeFile_result := fs_writeFile_result env;
     fs_readFile_result := fs_readFile_result env;
     fs_unlink_result := fs_unlink_result env;
     ffmpeg_thumbnail_result := λ _ _, Some err;
     pathUtils_join := pathUtils_join env;
     magnetUtil_encode := magnetUtil_encode env;
     magnetUtil_decode_infoHash := magnetUtil_decode_infoHash env;
     sequelize_escape := sequelize_escape env;
     sequelize_findAndCountAll := sequelize_findAndCountAll env;
     sequelize_validate_rejects := sequelize_validate_rejects env;
     modelUtils_getSort := modelUtils_getSort env;
     validator_isUUID4 := validator_isUUID4 env;
     isVideoNameValid := isVideoNameValid env;
     isVideoDescriptionValid := isVideoDescriptionValid env;
     isVideoDurationValid := isVideoDurationValid env;
     friends_broadcast_result := friends_broadcast_result env |}.

(** ** Concrete instances used to run the model *)

Definition example_constants : Constants :=
  {| CONFIG_STORAGE_VIDEOS_DIR := "/var/peertube/videos/";
     CONFIG_STORAGE_TORRENTS_DIR := "/var/peertube/torrents/";
     CONFIG_STORAGE_THUMBNAILS_DIR := "/var/peertube/thumbnails/";
     CONFIG_STORAGE_PREVIEWS_DIR := "/var/peertube/previews/";
     CONFIG_WEBSERVER_WS := "ws";
     CONFIG_WEBSERVER_HOSTNAME := "localhost";
     CONFIG_WEBSERVER_PORT := "9000";
     CONFIG_WEBSERVER_URL := "http://localhost:9000";
     CONFIG_WEBSERVER_HOST := "localhost:9000";
     STATIC_PATHS_WEBSEED := "/static/webseed/";
     STATIC_PATHS_TORRENTS := "/static/torrents/";
     STATIC_PATHS_THUMBNAILS := "/static/thumbnails";
     REMOTE_SCHEME_HTTP := "https";
     REMOTE_SCHEME_WS := "wss";
     THUMBNAILS_SIZE := "200x110" |}.

Definition example_hash : string :=
  "da39a3ee5e6b4b0d3255bfef95601890afd80709".

Definition example_digest : list byte :=
  [ xda; x39; xa3; xee; x5e; x6b; x4b; x0d; x32; x55;
    xbf; xef; x95; x60; x18; x90; xaf; xd8; x07; x09 ].

(** Collaborators that succeed, except that every unlink ends as [u] and
    the broadcast to the peers as [b]; the torrent encoder yields a torrent
    whose info-hash is [h]. *)
Definition example_env (h : string) (u b : option Error) : Env :=
  {| createTorrent_result := λ _ _, inr [x64; x38; x3a];
     parseTorrent_infoHash := λ _, h;
     fs_writeFile_result := λ _ _, None;
     fs_readFile_result := λ _, inr [xff; xd8; x00; x80];
     fs_unlink_result := λ _, u;
     ffmpeg_thumbnail_result := λ _ _, None;
     pathUtils_join := λ a b, a +:+ b;
     magnetUtil_encode := λ m, inr ("magnet:?xt=urn:btih:" +:+ mh_infoHash m);
     magnetUtil_decode_infoHash := λ _, Some h;
     sequelize_escape := λ s, "'" +:+ s +:+ "'";
     sequelize_findAndCountAll := λ _, inr ([], 0);
     sequelize_validate_rejects := true;
     modelUtils_getSort := λ s, [ s; "ASC" ];
     validator_isUUID4 := λ _, true;
     isVideoNameValid := λ _, true;
     isVideoDescriptionValid := λ _, true;
     isVideoDurationValid := λ _, true;
     friends_broadcast_result := λ _, b |}.

Definition local_author : AuthorT :=
  {| Author_name := "root"; Author_Pod := None |}.

Definition remote_author : AuthorT :=
  {| Author_name := "alice"; Author_Pod := Some {| Pod_host := "pod2.example.org" |} |}.

Definition owned_video : Video :=
  {| id := "6e9a1c0e-5c1f-4b6a-9a55-0c9d3f3b2a11"; name := "Demo"; extname := ".mp4";
     remoteId := None; description := "A demo"; infoHash := example_hash;
     duration := 120; createdAt := 1480000000000; updatedAt := 1480000000000;
     Author := local_author; Tags := [ {| Tag_name := "demo" |} ] |}.

Definition mirrored_video : Video :=
  {| id := "0b7d2f64-1111-4c7e-8a3e-2f6d0e9c4b22"; name := "Demo"; extname := ".mp4";
     remoteId := Some "abc"; description := "A demo"; infoHash := example_hash;
     duration := 120; createdAt := 1480000000000; updatedAt := 1480000000000;
     Author := remote_author; Tags := [] |}.

Definition initial_state (v : Video) : State :=
  {| st_video := v; st_calls := [] |}.

(** ** Listing and loading

    listForApi pages through every video with the query options of the
    search, without any condition. *)

Definition listForApi_query (env : Env) (start count : Z) (sort : string) : Query :=
  {| q_where := ∅;
     q_offset := start;
     q_limit := count;
     q_distinct := true; (* For the count, a video can have many tags *)
     q_order := [ modelUtils_getSort env sort; [ "Tag"; "name"; "ASC" ] ];
     q_include :=
       ({| ai_include := [ {| pi_required := false; pi_where := None |} ];
           ai_where := None |},
        {| ti_where := None |}) |}.

Definition listForApi (env : Env) (start count : Z) (sort : string)
  : Error + (list Video * nat) :=
  match sequelize_findAndCountAll env (listForApi_query env start count sort) with
  | inl err => inl err
  | inr (rows, total) => inr (rows, total)
  end.

(** A where-value of a finder: [null], or a condition on a value. *)
Inductive FindCond : Type :=
| FindNull                  (* column: null *)
| FindIs (c : Cond).        (* column: value *)

(** The options of findAll, findOne and findById: the where-clause and the
    includes, each of which may be left out. *)
Record FindOptions : Type := {
  fo_where : gmap string FindCond;
  fo_include_Author : option AuthorInclude;
  fo_include_Tag : option TagInclude
}.

(** An include given as a bare model. *)
Definition bare_Author : AuthorInclude := {| ai_include := []; ai_where := None |}.
Definition bare_Tag : TagInclude := {| ti_where := None |}.

Definition loadByHostAndRemoteId_query (fromHost remoteId_ : string) : FindOptions :=
  {| fo_where := {[ "remoteId" := FindIs (CondEq (Some remoteId_)) ]};
     fo_include_Author :=
       Some {| ai_include :=
                 [ {| pi_required := true;
                      pi_where := Some {[ "host" := CondEq (Some fromHost) ]} |} ];
               ai_where := None |};
     fo_include_Tag := None |}.

Definition listOwnedAndPopulateAuthorAndTags_query : FindOptions :=
  (* If remoteId is null this is *our* video *)
  {| fo_where := {[ "remoteId" := FindNull ]};
     fo_include_Author := Some bare_Author;
     fo_include_Tag := Some bare_Tag |}.

Definition listOwnedByAuthor_query (author : string) : FindOptions :=
  {| fo_where := {[ "remoteId" := FindNull ]};
     fo_include_Author :=
       Some {| ai_include := [];
               ai_where := Some {[ "name" := CondEq (Some author) ]} |};
     fo_include_Tag := None |}.

Definition load_options : FindOptions :=
  {| fo_where := ∅; fo_include_Author := None; fo_include_Tag := None |}.

Definition loadAndPopulateAuthor_options : FindOptions :=
  {| fo_where := ∅; fo_include_Author := Some bare_Author; fo_include_Tag := None |}.

Definition loadAndPopulateAuthorAndPodAndTags_options : FindOptions :=
  {| fo_where := ∅;
     fo_include_Author :=
       Some {| ai_include := [ {| pi_required := false; pi_where := None |} ];
               ai_where := None |};
     fo_include_Tag := Some bare_Tag |}.

(** *** What the finders mean to the storage layer

    The answers of the storage layer over a table [db] of videos, each with
    its author, pod and tags: a row is kept when every entry of the
    where-clause holds of its column and the includes admit it.  A column
    that is null satisfies [null] only. *)

Section Finders.

Variable sql_like : string → string → bool.

(** The text columns of the Video table; [remoteId] may be null. *)
Definition video_column (column : string) (v : Video) : option (option string) :=
  if String.eqb column "id" then Some (Some (id v))
  else if String.eqb column "name" then Some (Some (name v))
  else if String.eqb column "extname" then Some (Some (extname v))
  else if String.eqb column "remoteId" then Some (remoteId v)
  else if String.eqb column "description" then Some (Some (description v))
  else if String.eqb column "infoHash" then Some (Some (infoHash v))
  else None.

Definition find_cond_holds (c : FindCond) (x : option string) : bool :=
  match c, x with
  | FindNull, None => true
  | FindNull, Some _ => false
  | FindIs c, Some text => cond_holds sql_like c text
  | FindIs _, None => false
  end.

Definition where_admits (w : gmap string FindCond) (v : Video) : bool :=
  forallb
    (λ entry,
       match video_column (fst entry) v with
       | Some x => find_cond_holds (snd entry) x
       | None => false
       end)
    (map_to_list w).

Definition find_admits (o : FindOptions) (v : Video) : bool :=
  where_admits (fo_where o) v
  && match fo_include_Author o with
     | Some ai => authorInclude_admits sql_like ai (Author v)
     | None => true
     end.

Definition findAll (o : FindOptions) (db : list Video) : list Video :=
  filter (λ v, find_admits o v = true) db.

Definition findOne (o : FindOptions) (db : list Video) : option Video :=
  head (findAll o db).

(** findById sets the where-clause to the primary key. *)
Definition findById (id_ : string) (o : FindOptions) (db : list Video) : option Video :=
  findOne
    {| fo_where := {[ "id" := FindIs (CondEq (Some id_)) ]};
       fo_include_Author := fo_include_Author o;
       fo_include_Tag := fo_include_Tag o |}
    db.

Definition loadByHostAndRemoteId (fromHost remoteId_ : string) (db : list Video)
  : option Video :=
  findOne (loadByHostAndRemoteId_query fromHost remoteId_) db.

Definition listOwnedAndPopulateAuthorAndTags (db : list Video) : list Video :=
  findAll listOwnedAndPopulateAuthorAndTags_query db.

Definition listOwnedByAuthor (author : string) (db : list Video) : list Video :=
  findAll (listOwnedByAuthor_query author) db.

Definition load (id_ : string) (db : list Video) : option Video :=
  findById id_ load_options db.

Definition loadAndPopulateAuthor (id_ : string) (db : list Video) : option Video :=
  findById id_ loadAndPopulateAuthor_options db.

Definition loadAndPopulateAuthorAndPodAndTags (id_ : string) (db : list Video)
  : option Video :=
  findById id_ loadAndPopulateAuthorAndPodAndTags_options db.

End Finders.

(** ** Artifacts

    The file that a call to a collaborator leaves on the disk: the file
    written, or the image that ffmpeg stores under [filename] in [folder],
    which it joins as path.join does. *)
Definition artifact_path (env : Env) (c : Call) : option string :=
  match c with
  | FsWriteFile path _ => Some path
  | FfmpegThumbnail _ options =>
      Some (pathUtils_join env (th_folder options) (th_filename options))
  | _ => None
  end.

(** The calls of the state [s'] that were issued after the state [s]. *)
Definition calls_since (s s' : State) : list Call :=
  drop (length (st_calls s)) (st_calls s').

(** The instance [v] with the info-hash [h], as a state. *)
Definition with_infoHash (h : string) (s : State) : State :=
  {| st_video := set_infoHash h (st_video s); st_calls := st_calls s |}.

(** The calls that the tasks of beforeCreate issue for an owned video, by
    the time they have all run to completion, task by task. *)
Definition beforeCreate_issued (C : Constants) (env : Env) (v : Video) : list Call :=
  let videoPath := pathUtils_join env (CONFIG_STORAGE_VIDEOS_DIR C) (getVideoFilename v) in
  let options := createTorrent_options C v in
  let torrentPath := CONFIG_STORAGE_TORRENTS_DIR C +:+ getTorrentName v in
  CreateTorrent videoPath options
  :: match createTorrent_result env videoPath options with
     | inl _ => []
     | inr torrent => [ FsWriteFile torrentPath torrent ]
     end
  ++ [ FfmpegThumbnail videoPath
         {| th_filename := getThumbnailName v; th_count := 1;
            th_folder := CONFIG_STORAGE_THUMBNAILS_DIR C;
            th_size := Some (THUMBNAILS_SIZE C) |};
       FfmpegThumbnail videoPath
         {| th_filename := getPreviewName v; th_count := 1;
            th_folder := CONFIG_STORAGE_PREVIEWS_DIR C;
            th_size := None |} ].

(** ** The hooks on the event loop

    [parallel] above gives the outcome of a group of tasks and the state
    once every task has run to completion, the calls of a task grouped
    together.  On the event loop the tasks interleave: a task runs until it
    has started an operation, and goes on in the callback of that operation
    when the operation completes; the final callback is called as soon as a
    task calls back with an error, while the other tasks are still waiting,
    or when all have called back.  This section follows the tasks of
    beforeCreate callback by callback. *)

(** A task in progress: it has called back, or it waits for the operation
    it started, whose callback is [k]. *)
Inductive Proc : Type :=
| Called (r : Outcome)
| Waiting (k : State → Proc * State).

(** The tasks of a group, and what the final callback received, if it was
    called. *)
Record Group : Type := {
  g_procs : list Proc;
  g_final : option Outcome
}.

(** The results of the tasks when all have called back without an error. *)
Fixpoint all_called (procs : list Proc) : option (list JsValue) :=
  match procs with
  | [] => Some []
  | Called (inr x) :: procs' =>
      match all_called procs' with
      | Some xs => Some (x :: xs)
      | None => None
      end
  | _ => None
  end.

(** The tasks are started in the order of the array; a task that calls back
    with an error while it is started makes the final callback be called. *)
Fixpoint start_tasks (tasks : list (M Proc)) (g : Group) : M Group :=
  match tasks with
  | [] => mret g
  | t :: ts =>
      p ← t;
      start_tasks ts
        {| g_procs := g_procs g ++ [ p ];
           g_final :=
             match g_final g, p with
             | None, Called (inl e) => Some (inl e)
             | final, _ => final
             end |}
  end.

(** Task [i] has moved on to [p]: the final callback is called if [p] is an
    error, or if every task has now called back. *)
Definition settle (i : nat) (p : Proc) (g : Group) : Group :=
  let procs := <[i := p]> (g_procs g) in
  {| g_procs := procs;
     g_final :=
       match p with
       | Called (inl e) => Some (inl e)
       | Called (inr _) =>
           match all_called procs with
           | Some xs => Some (inr (JsArr xs))
           | None => None
           end
       | Waiting _ => None
       end |}.

(** The operations complete in the order [events] (task numbers): the
    callback of the operation that task [i] waits for is run.  Nothing is
    followed once the final callback has been called. *)
Fixpoint run_events (events : list nat) (g : Group) : M Group :=
  match g_final g, events with
  | None, i :: events' =>
      match g_procs g !! i with
      | Some (Waiting k) => p ← k; run_events events' (settle i p g)
      | _ => run_events events' g
      end
  | _, _ => mret g
  end.

(** The outcome with which the final callback is called, if it is called
    while the operations of [events] complete, and the state at that
    moment. *)
Definition parallel_async (events : list nat) (tasks : list (M Proc)) : M (option Outcome) :=
  g ← start_tasks tasks {| g_procs := []; g_final := None |};
  g ← run_events events
        {| g_procs := g_procs g;
           g_final :=
             match g_final g, all_called (g_procs g) with
             | None, Some xs => Some (inr (JsArr xs))
             | final, _ => final
             end |};
  mret (g_final g).

(** Operations that [sched] leaves pending complete afterwards, task by
    task. *)
Definition then_all_complete (n rounds : nat) (sched : list nat) : list nat :=
  sched ++ concat (replicate rounds (seq 0 n)).

Section EventLoop.

Variable C : Constants.
Variable env : Env.

Definition generateImage_async (videoPath folder imageName : string)
    (size : option string) : M Proc :=
  let options :=
    {| th_filename := imageName; th_count := 1; th_folder := folder;
       th_size := size |} in
  call (FfmpegThumbnail videoPath options);;
  mret (Waiting
          (* .on('error', callback).on('end', ...) *)
          (mret (Called match ffmpeg_thumbnail_result env videoPath options with
                        | Some err => inl err
                        | None => inr (JsStr imageName)
                        end) : M Proc)).

Definition createPreview_async (videoPath : string) : M Proc :=
  video ← get_video;
  generateImage_async videoPath (CONFIG_STORAGE_PREVIEWS_DIR C) (getPreviewName video) None.

Definition createThumbnail_async (videoPath : string) : M Proc :=
  video ← get_video;
  generateImage_async videoPath (CONFIG_STORAGE_THUMBNAILS_DIR C)
    (getThumbnailName video) (Some (THUMBNAILS_SIZE C)).

(** The callback of fs.writeFile in the first task. *)
Definition writeFile_callback (torrentPath : string) (torrent : list byte) : M Proc :=
  match fs_writeFile_result env torrentPath torrent with
  | Some err => mret (Called (inl err))
  | None =>
      let parsedTorrent_infoHash := parseTorrent_infoHash env torrent in
      modify_video (set_infoHash parsedTorrent_infoHash);;
      r ← validate_asCallback env;
      mret (Waiting (mret (Called r) : M Proc))
  end.

(** The callback of createTorrent in the first task. *)
Definition createTorrent_callback (videoPath : string) (options : TorrentOptions)
  : M Proc :=
  match createTorrent_result env videoPath options with
  | inl err => mret (Called (inl err))
  | inr torrent =>
      video ← get_video;
      let torrentPath := CONFIG_STORAGE_TORRENTS_DIR C +:+ getTorrentName video in
      call (FsWriteFile torrentPath torrent);;
      mret (Waiting (writeFile_callback torrentPath torrent))
  end.

Definition createTorrentTask_async (videoPath : string) : M Proc :=
  video ← get_video;
  let options := createTorrent_options C video in
  call (CreateTorrent videoPath options);;
  mret (Waiting (createTorrent_callback videoPath options)).

Definition beforeCreate_tasks_async (video : Video) : list (M Proc) :=
  let videoPath :=
    pathUtils_join env (CONFIG_STORAGE_VIDEOS_DIR C) (getVideoFilename video) in
  [ createTorrentTask_async videoPath;
    createThumbnail_async videoPath;
    createPreview_async videoPath ].

(** beforeCreate on the event loop, the operations completing in the order
    [sched] and then task by task. *)
Definition beforeCreate_async (sched : list nat) : M (option Outcome) :=
  video ← get_video;
  if isOwned video then
    parallel_async (then_all_complete 3 3 sched) (beforeCreate_tasks_async video)
  else mret (Some (inr JsUndefined)).

End EventLoop.

(** *** The stages of beforeCreate on the event loop

    The states that the tasks of beforeCreate reach from the state [s0] of
    an owned video: after the three tasks were started, after the torrent
    was handed to fs.writeFile, and after its info-hash was committed. *)

Section Stages.

Variable C : Constants.
Variable env : Env.
Variable s0 : State.

Definition loop_videoPath : string :=
  pathUtils_join env (CONFIG_STORAGE_VIDEOS_DIR C) (getVideoFilename (st_video s0)).

Definition loop_torrentPath : string :=
  CONFIG_STORAGE_TORRENTS_DIR C +:+ getTorrentName (st_video s0).

Definition thumbnail_options : ThumbnailOptions :=
  {| th_filename := getThumbnailName (st_video s0); th_count := 1;
     th_folder := CONFIG_STORAGE_THUMBNAILS_DIR C;
     th_size := Some (THUMBNAILS_SIZE C) |}.

Definition preview_options : ThumbnailOptions :=
  {| th_filename := getPreviewName (st_video s0); th_count := 1;
     th_folder := CONFIG_STORAGE_PREVIEWS_DIR C;
     th_size := None |}.

Definition started_calls : list Call :=
  [ CreateTorrent loop_videoPath (createTorrent_options C (st_video s0));
    FfmpegThumbnail loop_videoPath thumbnail_options;
    FfmpegThumbnail loop_videoPath preview_options ].

Definition after_start : State :=
  {| st_video := st_video s0; st_calls := st_calls s0 ++ started_calls |}.

Definition after_write (torrent : list byte) : State :=
  {| st_video := st_video s0;
     st_calls := st_calls s0 ++ started_calls ++ [ FsWriteFile loop_torrentPath torrent ] |}.

Definition after_commit (torrent : list byte) : State :=
  {| st_video := set_infoHash (parseTorrent_infoHash env torrent) (st_video s0);
     st_calls := st_calls s0 ++ started_calls ++ [ FsWriteFile loop_torrentPath torrent ] |}.

(** What the image tasks and the validation of the first task call back
    with. *)
Definition thumbnail_outcome : Outcome :=
  match ffmpeg_thumbnail_result env loop_videoPath thumbnail_options with
  | Some err => inl err
  | None => inr (JsStr (getThumbnailName (st_video s0)))
  end.

Definition preview_outcome : Outcome :=
  match ffmpeg_thumbnail_result env loop_videoPath preview_options with
  | Some err => inl err
  | None => inr (JsStr (getPreviewName (st_video s0)))
  end.

Definition validation_outcome (torrent : list byte) : Outcome :=
  (validate_asCallback env (after_commit torrent)).1.

(** Where the first task stands, and the state it has led to. *)
Inductive TorrentStage : Proc → State → Prop :=
| stage_encoding :
    TorrentStage
      (Waiting (createTorrent_callback C env loop_videoPath
                  (createTorrent_options C (st_video s0))))
      after_start
| stage_writing torrent :
    createTorrent_result env loop_videoPath (createTorrent_options C (st_video s0))
      = inr torrent →
    TorrentStage (Waiting (writeFile_callback env loop_torrentPath torrent))
      (after_write torrent)
| stage_validating torrent :
    createTorrent_result env loop_videoPath (createTorrent_options C (st_video s0))
      = inr torrent →
    fs_writeFile_result env loop_torrentPath torrent = None →
    TorrentStage (Waiting (mret (Called (validation_outcome torrent)) : M Proc))
      (after_commit torrent)
| stage_not_encoded err :
    createTorrent_result env loop_videoPath (createTorrent_options C (st_video s0))
      = inl err →
    TorrentStage (Called (inl err)) after_start
| stage_not_written torrent err :
    createTorrent_result env loop_videoPath (createTorrent_options C (st_video s0))
      = inr torrent →
    fs_writeFile_result env loop_torrentPath torrent = Some err →
    TorrentStage (Called (inl err)) (after_write torrent)
| stage_validated torrent :
    createTorrent_result env loop_videoPath (createTorrent_options C (st_video s0))
      = inr torrent →
    fs_writeFile_result env loop_torrentPath torrent = None →
    TorrentStage (Called (validation_outcome torrent)) (after_commit torrent).

(** Where an image task that calls back with [r] stands. *)
Inductive ImageStage (r : Outcome) : Proc → Prop :=
| image_waiting : ImageStage r (Waiting (mret (Called r) : M Proc))
| image_called : ImageStage r (Called r).

Definition LoopStage (procs : list Proc) (st : State) : Prop :=
  ∃ p1 p2 p3,
    procs = [ p1; p2; p3 ]
    ∧ TorrentStage p1 st
    ∧ ImageStage thumbnail_outcome p2
    ∧ ImageStage preview_outcome p3.

End Stages.

(** The final callback of a group was called for a reason: with the error
    of a task that has called back with it, or with the results of the
    tasks that have all called back; and it is called as soon as there is
    such a reason. *)
Definition justified (g : Group) : Prop :=
  match g_final g with
  | None =>
      (∀ i e, g_procs g !! i ≠ Some (Called (inl e)))
      ∧ all_called (g_procs g) = None
  | Some (inl e) => ∃ i, g_procs g !! i = Some (Called (inl e))
  | Some (inr x) => ∃ xs, x = JsArr xs ∧ all_called (g_procs g) = Some xs
  end.

(** * Properties *)

(** ** Ownership *)

Lemma isOwned_true_iff (v : Video) : isOwned v = true ↔ remoteId v = None.
Proof. unfold isOwned. destruct (remoteId v); split; congruence. Qed.

Lemma isOwned_set_infoHash (h : string) (v : Video) :
  isOwned (set_infoHash h v) = isOwned v.
Proof. reflexivity. Qed.

(** ** Naming *)

(** C6: the file names depend on ownership, id, remoteId and extname only.
    For an owned video the video, preview and torrent files are named after
    [id] ([id ++ extname], [id ++ .jpg], [id ++ .torrent]); for a mirrored
    one after [remoteId]; the thumbnail is always [id ++ .jpg]. *)
Theorem naming_functions (v : Video) :
  match remoteId v with
  | None =>
      isOwned v = true
      ∧ getVideoFilename v = id v +:+ extname v
      ∧ getPreviewName v = id v +:+ ".jpg"
      ∧ getTorrentName v = id v +:+ ".torrent"
  | Some r =>
      isOwned v = false
      ∧ getVideoFilename v = r +:+ extname v
      ∧ getPreviewName v = r +:+ ".jpg"
      ∧ getTorrentName v = r +:+ ".torrent"
  end
  ∧ getThumbnailName v = id v +:+ ".jpg"
  ∧ ∀ v' : Video,
      id v' = id v → remoteId v' = remoteId v → extname v' = extname v →
      getVideoFilename v' = getVideoFilename v
      ∧ getThumbnailName v' = getThumbnailName v
      ∧ getPreviewName v' = getPreviewName v
      ∧ getTorrentName v' = getTorrentName v.
Proof.
  split; [|split].
  - unfold getVideoFilename, getPreviewName, getTorrentName, isOwned.
    destruct (remoteId v); auto.
  - reflexivity.
  - intros v' Hid Hr He.
    unfold getVideoFilename, getThumbnailName, getPreviewName, getTorrentName, isOwned.
    rewrite Hid, Hr, He. auto.
Qed.

(** The mirrored video of the scenario: remoteId abc, extname .mp4. *)
Lemma naming_functions_witness :
  getVideoFilename mirrored_video = "abc.mp4"
  ∧ getThumbnailName mirrored_video = "0b7d2f64-1111-4c7e-8a3e-2f6d0e9c4b22.jpg"
  ∧ getVideoFilename (set_infoHash placeholder_infoHash mirrored_video)
    = getVideoFilename mirrored_video.
Proof.
  destruct (naming_functions mirrored_video) as (Hm & Ht & Hpure).
  split; [apply Hm|]. split; [apply Ht|].
  apply (Hpure (set_infoHash placeholder_infoHash mirrored_video));
    reflexivity.
Defined.

(** ** Magnet descriptor *)

(** C9: generateMagnetUri is a function of the video and the
    configuration.  For an owned video the base HTTP origin is the URL of
    this pod's web server, for a mirrored video it is built from the host
    of the owning pod; [xs] is the base origin, the static torrent path and
    the torrent file name, [urlList] the single web-seed URL of the video
    file, [announce] the tracker origin followed by /tracker/socket, and
    the result is the encoding of xs, announce, urlList, infoHash, name.
    A mirrored video whose author carries no pod has no origin to build. *)
Theorem generateMagnetUri_spec (C : Constants) (env : Env) (v : Video) :
  match remoteId v with
  | None =>
      let baseUrlHttp := CONFIG_WEBSERVER_URL C in
      let baseUrlWs :=
        CONFIG_WEBSERVER_WS C +:+ "://" +:+ CONFIG_WEBSERVER_HOSTNAME C
          +:+ ":" +:+ CONFIG_WEBSERVER_PORT C in
      generateMagnetUri C env v =
        magnetUtil_encode env
          {| mh_xs := baseUrlHttp +:+ STATIC_PATHS_TORRENTS C +:+ (id v +:+ ".torrent");
             mh_announce := baseUrlWs +:+ "/tracker/socket";
             mh_urlList := [ baseUrlHttp +:+ STATIC_PATHS_WEBSEED C +:+ (id v +:+ extname v) ];
             mh_infoHash := infoHash v;
             mh_name := name v |}
  | Some r =>
      match Author_Pod (Author v) with
      | Some pod =>
          let baseUrlHttp := REMOTE_SCHEME_HTTP C +:+ "://" +:+ Pod_host pod in
          let baseUrlWs := REMOTE_SCHEME_WS C +:+ "://" +:+ Pod_host pod in
          generateMagnetUri C env v =
            magnetUtil_encode env
              {| mh_xs := baseUrlHttp +:+ STATIC_PATHS_TORRENTS C +:+ (r +:+ ".torrent");
                 mh_announce := baseUrlWs +:+ "/tracker/socket";
                 mh_urlList := [ baseUrlHttp +:+ STATIC_PATHS_WEBSEED C +:+ (r +:+ extname v) ];
                 mh_infoHash := infoHash v;
                 mh_name := name v |}
      | None => ∃ e, generateMagnetUri C env v = inl e
      end
  end.
Proof.
  unfold generateMagnetUri, getTorrentName, getVideoFilename, isOwned.
  destruct (remoteId v) as [r|]; cbn [remoteId_toString].
  - destruct (Author_Pod (Author v)) as [pod|]; [reflexivity | eauto].
  - reflexivity.
Qed.

(** ** Public representation *)

(** C10: whenever the magnet URI can be built, toFormatedJSON yields an
    object whose [isLocal] is isOwned() and whose [podHost] is the host of
    the author's pod, or this pod's configured host when the author has no
    pod; otherwise it fails with the error of generateMagnetUri. *)
Theorem toFormatedJSON_isLocal_podHost (C : Constants) (env : Env) (v : Video) :
  match generateMagnetUri C env v with
  | inl e => toFormatedJSON C env v = inl e
  | inr magnetUri =>
      ∃ json, toFormatedJSON C env v = inr json
        ∧ js_get "isLocal" json = Some (JsBool (isOwned v))
        ∧ js_get "podHost" json =
            Some (JsStr match Author_Pod (Author v) with
                        | Some pod => Pod_host pod
                        | None => CONFIG_WEBSERVER_HOST C
                        end)
        ∧ js_get "magnetUri" json = Some (JsStr magnetUri)
  end.
Proof.
  unfold toFormatedJSON.
  destruct (generateMagnetUri C env v) as [e|m]; [reflexivity|].
  eexists; split; [reflexivity|].
  repeat split; reflexivity.
Qed.

(** ** Federation representations *)

Lemma Buffer_from_binary_toString_binary (data : list byte) :
  Buffer_from_binary (toString_binary data) = data.
Proof. apply list_byte_of_string_of_list_byte. Qed.

(** C7: the update representation carries name, description, infoHash,
    author, duration, tags, timestamps and extname and no thumbnail; the add
    representation, when the thumbnail can be read, is the same object with
    the thumbnail bytes added under [thumbnailData] in an encoding that
    gives the bytes back; both carry the video's own id as [remoteId]. *)
Theorem remote_representations (C : Constants) (env : Env) (s : State) :
  let v := st_video s in
  let upd := toUpdateRemoteJSON v in
  (js_get "name" upd = Some (JsStr (name v))
   ∧ js_get "description" upd = Some (JsStr (description v))
   ∧ js_get "infoHash" upd = Some (JsStr (infoHash v))
   ∧ js_get "author" upd = Some (JsStr (Author_name (Author v)))
   ∧ js_get "duration" upd = Some (JsNum (duration v))
   ∧ js_get "tags" upd = Some (JsArr (map (λ t, JsStr (Tag_name t)) (Tags v)))
   ∧ js_get "createdAt" upd = Some (JsDate (createdAt v))
   ∧ js_get "updatedAt" upd = Some (JsDate (updatedAt v))
   ∧ js_get "extname" upd = Some (JsStr (extname v)))
  ∧ js_get "remoteId" upd = Some (JsStr (id v))
  ∧ js_get "thumbnailData" upd = None
  ∧ match fs_readFile_result env
            (pathUtils_join env (CONFIG_STORAGE_THUMBNAILS_DIR C) (id v +:+ ".jpg")) with
    | inl err => (toAddRemoteJSON C env s).1 = inl err
    | inr thumbnailData =>
        ∃ add, (toAddRemoteJSON C env s).1 = inr add
          ∧ js_get "thumbnailData" add = Some (JsStr (toString_binary thumbnailData))
          ∧ Buffer_from_binary (toString_binary thumbnailData) = thumbnailData
          ∧ js_get "remoteId" add = Some (JsStr (id v))
          ∧ js_omit "thumbnailData" add = upd
    end.
Proof.
  intros v upd. split; [repeat split; reflexivity|].
  split; [reflexivity|]. split; [reflexivity|].
  unfold toAddRemoteJSON, mbind, M_bind, get_video, call, mret, M_ret, getThumbnailName.
  fold v.
  destruct (fs_readFile_result env _) as [err|data]; [reflexivity|].
  cbn. eexists; split; [reflexivity|].
  split; [reflexivity|]. split; [apply Buffer_from_binary_toString_binary|].
  split; [reflexivity|]. reflexivity.
Qed.

(** ** async/parallel *)

Ltac munfold :=
  unfold mbind, M_bind, mret, M_ret, get_video, modify_video, call in *.

Lemma run_tasks_cons (t : M Outcome) (ts : list (M Outcome)) (s : State) :
  run_tasks (t :: ts) s =
  ((t s).1 :: (run_tasks ts (t s).2).1, (run_tasks ts (t s).2).2).
Proof.
  cbn [run_tasks]. munfold.
  destruct (t s) as [r s1]. cbn [fst snd].
  destruct (run_tasks ts s1) as [rs s2]. reflexivity.
Qed.

Lemma run_tasks_length (tasks : list (M Outcome)) (s : State) :
  length (run_tasks tasks s).1 = length tasks.
Proof.
  revert s. induction tasks as [|t ts IH]; intros s; [reflexivity|].
  rewrite run_tasks_cons. cbn. by rewrite IH.
Qed.

Lemma parallel_unfold (sched : list nat) (tasks : list (M Outcome)) (s : State) :
  parallel sched tasks s =
  (match first_error (sched ++ seq 0 (length tasks)) (run_tasks tasks s).1 with
   | Some e => inl e
   | None => inr (JsArr (results_of (run_tasks tasks s).1))
   end, (run_tasks tasks s).2).
Proof.
  unfold parallel. munfold.
  pose proof (run_tasks_length tasks s) as Hlen.
  destruct (run_tasks tasks s) as [rs s1]. cbn in *. rewrite Hlen.
  by destruct (first_error _ rs).
Qed.

Lemma first_error_Some (order : list nat) (rs : list Outcome) (e : Error) :
  first_error order rs = Some e → ∃ i, i ∈ order ∧ rs !! i = Some (inl e).
Proof.
  induction order as [|i order IH]; cbn; [done|].
  destruct (rs !! i) as [[e'|x]|] eqn:Hi.
  - intros [= <-]. exists i. split; [left|done].
  - intros H. destruct (IH H) as (j & Hj & Hl). exists j. split; [by right|done].
  - intros H. destruct (IH H) as (j & Hj & Hl). exists j. split; [by right|done].
Qed.

Lemma first_error_None (order : list nat) (rs : list Outcome) (i : nat) (e : Error) :
  first_error order rs = None → i ∈ order → rs !! i ≠ Some (inl e).
Proof.
  induction order as [|j order IH]; cbn; intros Hn Hin.
  - by apply elem_of_nil in Hin.
  - apply elem_of_cons in Hin as [->|Hin].
    + destruct (rs !! j) as [[e'|x]|]; congruence.
    + destruct (rs !! j) as [[e'|x]|]; [done|by apply IH..].
Qed.

Lemma first_error_app (o1 o2 : list nat) (rs : list Outcome) :
  first_error (o1 ++ o2) rs =
  match first_error o1 rs with
  | Some e => Some e
  | None => first_error o2 rs
  end.
Proof.
  induction o1 as [|i o1 IH]; cbn; [done|].
  by destruct (rs !! i) as [[e'|x]|].
Qed.

(** The final callback gets no error exactly when no task yields one. *)
Lemma parallel_ok_iff (sched : list nat) (tasks : list (M Outcome)) (s : State) :
  (∃ x, (parallel sched tasks s).1 = inr x)
  ↔ ∀ i e, (run_tasks tasks s).1 !! i ≠ Some (inl e).
Proof.
  rewrite parallel_unfold. cbn.
  destruct (first_error _ _) as [e|] eqn:Hfe; split.
  - intros [x [=]].
  - intros Hall. apply first_error_Some in Hfe as (i & _ & Hi).
    by destruct (Hall i e).
  - intros _ i e Hi.
    apply (first_error_None _ _ i e) in Hfe; [done|].
    apply elem_of_app. right. apply elem_of_seq.
    apply lookup_lt_Some in Hi. rewrite run_tasks_length in Hi. lia.
  - eauto.
Qed.

(** The error the final callback gets is the error of one of the tasks. *)
Lemma parallel_error_from_task (sched : list nat) (tasks : list (M Outcome))
    (s : State) (e : Error) :
  (parallel sched tasks s).1 = inl e →
  ∃ i, (run_tasks tasks s).1 !! i = Some (inl e).
Proof.
  rewrite parallel_unfold. cbn.
  destruct (first_error _ _) as [e'|] eqn:Hfe; [|done].
  intros [= <-]. apply first_error_Some in Hfe as (i & _ & Hi). eauto.
Qed.

(** A task that fails makes the whole group fail. *)
Lemma parallel_fails (sched : list nat) (tasks : list (M Outcome))
    (s : State) (i : nat) (e : Error) :
  (run_tasks tasks s).1 !! i = Some (inl e) →
  ∃ e', (parallel sched tasks s).1 = inl e'.
Proof.
  intros Hi.
  destruct (parallel sched tasks s).1 as [e'|x] eqn:Hp; [eauto|].
  by destruct (proj1 (parallel_ok_iff sched tasks s) (ex_intro _ x Hp) i e).
Qed.

(** ** Destruction *)

Ltac run_hook :=
  repeat (rewrite run_tasks_cons; cbn [fst snd]);
  cbn [run_tasks]; munfold; cbn [fst snd st_video st_calls].

Lemma afterDestroy_state (C : Constants) (env : Env) (sched : list nat) (s : State) :
  st_calls (afterDestroy C env sched s).2
    = st_calls s ++ afterDestroy_calls C env (st_video s)
  ∧ st_video (afterDestroy C env sched s).2 = st_video s.
Proof.
  unfold afterDestroy, afterDestroy_calls. munfold. rewrite parallel_unfold.
  cbn [fst snd]. unfold afterDestroy_tasks.
  destruct (isOwned (st_video s)) eqn:Hown; cbn [app].
  - unfold removeThumbnail, removeFile, removeTorrent, removePreview,
      notifyFriendsTask, removeVideoToFriends.
    run_hook.
    destruct (friends_broadcast_result env _); cbn [fst snd st_video st_calls];
      (split; [|reflexivity]); rewrite <- ?app_assoc; reflexivity.
  - unfold removeThumbnail. run_hook. split; reflexivity.
Qed.

(** C3: destruction always unlinks the thumbnail.  For an owned video it
    also unlinks the media file, the torrent and the preview and hands the
    payload {name, remoteId: id} to the peer directory; for a mirrored
    video the thumbnail removal is the only task. *)
Theorem afterDestroy_runs (C : Constants) (env : Env) (sched : list nat) (s : State) :
  let v := st_video s in
  let payload := [ ("name", JsStr (name v)); ("remoteId", JsStr (id v)) ] in
  let issued := drop (length (st_calls s)) (st_calls (afterDestroy C env sched s).2) in
  length (afterDestroy_tasks C env v) = (if isOwned v then 5 else 1)
  ∧ st_calls (afterDestroy C env sched s).2 = st_calls s ++ issued
  ∧ issued =
      FsUnlink (CONFIG_STORAGE_THUMBNAILS_DIR C +:+ getThumbnailName v)
      :: (if isOwned v then
            [ FsUnlink (CONFIG_STORAGE_VIDEOS_DIR C +:+ getVideoFilename v);
              FsUnlink (CONFIG_STORAGE_TORRENTS_DIR C +:+ getTorrentName v);
              FsUnlink (CONFIG_STORAGE_PREVIEWS_DIR C +:+ getPreviewName v);
              FriendsRemoveVideo payload ]
            ++ match friends_broadcast_result env payload with
               | Some _ => [ LoggerError "Cannot broadcast the removal to friends" ]
               | None => []
               end
          else [])
  ∧ (FriendsRemoveVideo payload ∈ issued ↔ isOwned v = true)
  ∧ st_video (afterDestroy C env sched s).2 = v.
Proof.
  intros v payload issued.
  destruct (afterDestroy_state C env sched s) as [Hcalls Hv].
  assert (issued = afterDestroy_calls C env v) as Hissued.
  { unfold issued. rewrite Hcalls. by rewrite drop_app_length. }
  rewrite Hissued. split; [|split; [done|split; [done|split; [|done]]]].
  - unfold afterDestroy_tasks. by destruct (isOwned v).
  - unfold afterDestroy_calls. fold payload.
    destruct (isOwned v); split; try done.
    + intros _. right. right. right. right. left.
    + intros Hin. apply elem_of_cons in Hin as [Hin|Hin]; [done|].
      by apply elem_of_nil in Hin.
Qed.

(** C8: the task that notifies the peers hands the payload to the peer
    directory and calls back without an error, however the broadcast ends;
    the outcome of the destruction does not depend on how the broadcast
    ends, and an error it reports is the error of one of the unlinks. *)
Theorem notifyFriends_never_fails (C : Constants) (env : Env) (sched : list nat)
    (s : State) (b : option Error) :
  let v := st_video s in
  let payload := [ ("name", JsStr (name v)); ("remoteId", JsStr (id v)) ] in
  let env' := with_broadcast_result b env in
  (notifyFriendsTask env' s).1 = inr JsUndefined
  ∧ FriendsRemoveVideo payload ∈ st_calls (notifyFriendsTask env' s).2
  ∧ (afterDestroy C env' sched s).1 = (afterDestroy C env sched s).1
  ∧ ∀ e, (afterDestroy C env' sched s).1 = inl e →
      ∃ path, fs_unlink_result env path = Some e
        ∧ FsUnlink path ∈ st_calls (afterDestroy C env' sched s).2.
Proof.
  intros v payload env'.
  split; [|split; [|split]].
  - unfold notifyFriendsTask, removeVideoToFriends. munfold. cbn.
    by destruct b.
  - unfold notifyFriendsTask, removeVideoToFriends. munfold. cbn.
    fold v. fold payload.
    destruct b; cbn; rewrite ?elem_of_app, ?list_elem_of_singleton; auto.
  - unfold afterDestroy. munfold. rewrite !parallel_unfold. cbn [fst snd].
    unfold afterDestroy_tasks. destruct (isOwned (st_video s)); cbn [app].
    + unfold removeThumbnail, removeFile, removeTorrent, removePreview,
        notifyFriendsTask, removeVideoToFriends.
      run_hook. cbn.
      by destruct b, (friends_broadcast_result env _).
    + unfold removeThumbnail. run_hook. reflexivity.
  - intros e He.
    destruct (afterDestroy_state C env' sched s) as [Hcalls _].
    rewrite Hcalls. clear Hcalls. unfold afterDestroy_calls.
    revert He. unfold afterDestroy. munfold. cbn [fst snd].
    intros He. apply parallel_error_from_task in He as [i Hi].
    revert Hi. unfold afterDestroy_tasks. fold v.
    destruct (isOwned v); cbn [app].
    + unfold removeThumbnail, removeFile, removeTorrent, removePreview,
        notifyFriendsTask, removeVideoToFriends.
      run_hook. fold v.
      destruct i as [|[|[|[|[|i]]]]]; cbn; intros Hi;
        try (destruct b; cbn in Hi; done);
        match type of Hi with
        | Some (outcome_of_err (fs_unlink_result env ?p)) = _ =>
            exists p; split;
            [ by destruct (fs_unlink_result env p); cbn in Hi; simplify_eq
            | rewrite elem_of_app; right;
              rewrite !elem_of_cons; auto 10 ]
        end.
    + unfold removeThumbnail. run_hook. fold v.
      destruct i as [|i]; cbn; intros Hi; [|done].
      match type of Hi with
      | Some (outcome_of_err (fs_unlink_result env ?p)) = _ =>
          exists p; split;
          [ by destruct (fs_unlink_result env p); cbn in Hi; simplify_eq
          | rewrite elem_of_app; right; rewrite !elem_of_cons; auto ]
      end.
Qed.

(** ** Validation *)

Lemma is_lower_hex_spec (c : ascii) : is_lower_hex c = true ↔ c ∈ hex_digits.
Proof.
  assert (is_lower_hex c = bool_decide (c ∈ hex_digits)) as ->.
  { destruct c as [[] [] [] [] [] [] [] []]; vm_compute; reflexivity. }
  apply bool_decide_eq_true.
Qed.

Lemma isVideoInfoHashValid_pattern (s : string) :
  isVideoInfoHashValid s = true ↔ matches_infoHash_pattern s.
Proof.
  unfold isVideoInfoHashValid, matches_infoHash_pattern.
  rewrite andb_true_iff, Nat.eqb_eq, forallb_forall.
  split.
  - intros [Hlen Hall]. exists (list_ascii_of_string s).
    split; [by rewrite string_of_list_ascii_of_string|]. split.
    + rewrite <- Hlen. clear. induction s as [|c s IH]; cbn; [done|]. by rewrite IH.
    + apply Forall_forall. intros c Hc. apply is_lower_hex_spec, Hall.
      by apply list_elem_of_In.
  - intros (cs & -> & Hlen & Hall). rewrite list_ascii_of_string_of_list_ascii.
    split.
    + rewrite <- Hlen. clear. induction cs as [|c cs IH]; cbn; [done|]. by rewrite IH.
    + intros c Hc. apply is_lower_hex_spec.
      rewrite Forall_forall in Hall. by apply Hall, list_elem_of_In.
Qed.

Lemma validation_errors_nil_infoHash (env : Env) (v : Video) :
  validation_errors env v = [] → isVideoInfoHashValid (infoHash v) = true.
Proof.
  unfold validation_errors. intros H.
  repeat (apply app_eq_nil in H as [? H]).
  by destruct (isVideoInfoHashValid (infoHash v)).
Qed.

(** ** Creation *)

(** The image tasks neither read the info-hash nor change the instance. *)
Lemma generateImage_state (env : Env) (videoPath folder imageName : string)
    (size : option string) (s : State) :
  let options :=
    {| th_filename := imageName; th_count := 1; th_folder := folder; th_size := size |} in
  generateImage env videoPath folder imageName size s =
  (match ffmpeg_thumbnail_result env videoPath options with
   | Some err => inl err
   | None => inr (JsStr imageName)
   end,
   {| st_video := st_video s;
      st_calls := st_calls s ++ [ FfmpegThumbnail videoPath options ] |}).
Proof.
  unfold generateImage. munfold. cbn.
  by destruct (ffmpeg_thumbnail_result env videoPath _).
Qed.

(** The first task either leaves the instance as it is or commits an
    info-hash on it. *)
Lemma createTorrentTask_video (C : Constants) (env : Env) (videoPath : string) (s : State) :
  st_video (createTorrentTask C env videoPath s).2 = st_video s
  ∨ ∃ h, st_video (createTorrentTask C env videoPath s).2 = set_infoHash h (st_video s).
Proof.
  unfold createTorrentTask, validate_asCallback, validate. munfold. cbn.
  destruct (createTorrent_result env _ _) as [err|torrent]; [by left|]. cbn.
  destruct (fs_writeFile_result env _ _) as [err|]; [by left|]. cbn.
  right. exists (parseTorrent_infoHash env torrent).
  destruct (validation_errors env _); [done|].
  by destruct (sequelize_validate_rejects env).
Qed.

(** When the first task calls back without an error, the torrent was
    encoded and written and its info-hash is on the instance. *)
Lemma createTorrentTask_ok (C : Constants) (env : Env) (videoPath : string)
    (s : State) (x : JsValue) :
  (createTorrentTask C env videoPath s).1 = inr x →
  ∃ torrent,
    createTorrent_result env videoPath (createTorrent_options C (st_video s)) = inr torrent
    ∧ st_video (createTorrentTask C env videoPath s).2
      = set_infoHash (parseTorrent_infoHash env torrent) (st_video s)
    ∧ (sequelize_validate_rejects env = true →
       isVideoInfoHashValid (parseTorrent_infoHash env torrent) = true).
Proof.
  unfold createTorrentTask, validate_asCallback, validate. munfold. cbn.
  destruct (createTorrent_result env _ _) as [err|torrent]; [done|]. cbn.
  destruct (fs_writeFile_result env _ _) as [err|]; [done|]. cbn.
  destruct (validation_errors env _) as [|msg msgs] eqn:Hval.
  - intros _. exists torrent. split; [done|]. split; [done|]. intros _.
    by apply validation_errors_nil_infoHash in Hval.
  - destruct (sequelize_validate_rejects env); [done|].
    intros _. exists torrent. split; [done|]. split; [done|]. done.
Qed.

Lemma createThumbnail_state (C : Constants) (env : Env) (videoPath : string) (s : State) :
  createThumbnail C env videoPath s =
  generateImage env videoPath (CONFIG_STORAGE_THUMBNAILS_DIR C)
    (getThumbnailName (st_video s)) (Some (THUMBNAILS_SIZE C)) s.
Proof. reflexivity. Qed.

Lemma createPreview_state (C : Constants) (env : Env) (videoPath : string) (s : State) :
  createPreview C env videoPath s =
  generateImage env videoPath (CONFIG_STORAGE_PREVIEWS_DIR C)
    (getPreviewName (st_video s)) None s.
Proof. reflexivity. Qed.

(** The outcomes of the three tasks do not depend on one another. *)
Lemma beforeCreate_tasks_run (C : Constants) (env : Env) (s : State) :
  isOwned (st_video s) = true →
  let videoPath :=
    pathUtils_join env (CONFIG_STORAGE_VIDEOS_DIR C) (getVideoFilename (st_video s)) in
  (run_tasks (beforeCreate_tasks C env (st_video s)) s).1 =
    [ (createTorrentTask C env videoPath s).1;
      (createThumbnail C env videoPath s).1;
      (createPreview C env videoPath s).1 ]
  ∧ st_video (run_tasks (beforeCreate_tasks C env (st_video s)) s).2
    = st_video (createTorrentTask C env videoPath s).2.
Proof.
  intros Hown videoPath. unfold beforeCreate_tasks. rewrite Hown. fold videoPath.
  rewrite !run_tasks_cons. cbn [run_tasks fst snd].
  rewrite !createThumbnail_state, !createPreview_state, !generateImage_state.
  cbn [fst snd st_video]. unfold mret, M_ret. cbn [fst snd st_video].
  destruct (createTorrentTask_video C env videoPath s) as [->|[h ->]];
    split; reflexivity.
Qed.

Lemma beforeValidate_state (s : State) :
  beforeValidate s =
  (inr JsUndefined,
   {| st_video :=
        if isOwned (st_video s) then set_infoHash placeholder_infoHash (st_video s)
        else st_video s;
      st_calls := st_calls s |}).
Proof.
  unfold beforeValidate. munfold. cbn.
  destruct (isOwned (st_video s)); [reflexivity|]. by destruct s.
Qed.

Lemma validate_state (env : Env) (s : State) : (validate env s).2 = s.
Proof.
  unfold validate. munfold. cbn. by destruct (validation_errors env _).
Qed.

Lemma createVideo_unfold (C : Constants) (env : Env) (sched : list nat) (s : State) :
  let s1 := (beforeValidate s).2 in
  createVideo C env sched s =
  match (validate env s1).1 with
  | Some msg => (inl (ValidationError msg), s1)
  | None => beforeCreate C env sched s1
  end.
Proof.
  intros s1. unfold createVideo. unfold mbind at 1, M_bind.
  unfold s1. rewrite beforeValidate_state. cbn [fst snd].
  unfold mbind, M_bind. pose proof (validate_state env) as Hst.
  match goal with |- context [validate env ?s'] =>
    specialize (Hst s'); destruct (validate env s') as [[msg|] s2] end;
    cbn in Hst; subst s2; reflexivity.
Qed.

Lemma beforeCreate_owned (C : Constants) (env : Env) (sched : list nat) (s : State) :
  isOwned (st_video s) = true →
  beforeCreate C env sched s = parallel sched (beforeCreate_tasks C env (st_video s)) s.
Proof. intros Hown. unfold beforeCreate. munfold. by rewrite Hown. Qed.

(** C2: for an owned video beforeCreate starts three tasks: the torrent
    task, the thumbnail and the preview.  It calls back without an error
    exactly when the three of them do; the error it reports is the error of
    one of them, and the only one when a single task fails; a creation that
    succeeds has seen the three tasks succeed, and an error of the pipeline
    is the error of the creation. *)
Theorem beforeCreate_all_or_nothing (C : Constants) (env : Env) (sched : list nat)
    (s0 : State) :
  isOwned (st_video s0) = true →
  let s := (beforeValidate s0).2 in
  let videoPath :=
    pathUtils_join env (CONFIG_STORAGE_VIDEOS_DIR C) (getVideoFilename (st_video s)) in
  let r1 := (createTorrentTask C env videoPath s).1 in
  let r2 := (createThumbnail C env videoPath s).1 in
  let r3 := (createPreview C env videoPath s).1 in
  let result := (beforeCreate C env sched s).1 in
  let creation := (createVideo C env sched s0).1 in
  beforeCreate_tasks C env (st_video s) =
    [ createTorrentTask C env videoPath;
      createThumbnail C env videoPath;
      createPreview C env videoPath ]
  ∧ (run_tasks (beforeCreate_tasks C env (st_video s)) s).1 = [ r1; r2; r3 ]
  ∧ ((∃ x, result = inr x) ↔ ∃ x1 x2 x3, r1 = inr x1 ∧ r2 = inr x2 ∧ r3 = inr x3)
  ∧ (∀ e, result = inl e → r1 = inl e ∨ r2 = inl e ∨ r3 = inl e)
  ∧ (∀ e, r1 = inl e ∨ r2 = inl e ∨ r3 = inl e → ∃ e', result = inl e')
  ∧ (∀ e, r1 = inl e ∨ r2 = inl e ∨ r3 = inl e →
       (∀ e', r1 = inl e' ∨ r2 = inl e' ∨ r3 = inl e' → e' = e) →
       result = inl e)
  ∧ (∀ x, creation = inr x → result = inr x)
  ∧ (∀ e, result = inl e → (validate env s).1 = None → creation = inl e).
Proof.
  intros Hown0 s videoPath r1 r2 r3 result creation.
  assert (isOwned (st_video s) = true) as Hown.
  { unfold s. rewrite beforeValidate_state. cbn. by rewrite Hown0. }
  destruct (beforeCreate_tasks_run C env s Hown) as [Hrs _].
  fold videoPath r1 r2 r3 in Hrs.
  assert (result = (parallel sched (beforeCreate_tasks C env (st_video s)) s).1) as Hres.
  { unfold result. by rewrite beforeCreate_owned. }
  assert (∀ e, result = inl e → r1 = inl e ∨ r2 = inl e ∨ r3 = inl e) as Hfrom.
  { intros e He. rewrite Hres in He.
    apply parallel_error_from_task in He as [i Hi]. rewrite Hrs in Hi.
    destruct i as [|[|[|i]]]; cbn in Hi; simplify_eq; auto. }
  assert (∀ e, r1 = inl e ∨ r2 = inl e ∨ r3 = inl e → ∃ e', result = inl e') as Hfail.
  { intros e He. rewrite Hres.
    destruct He as [He|[He|He]];
      [ apply (parallel_fails _ _ _ 0 e) | apply (parallel_fails _ _ _ 1 e)
      | apply (parallel_fails _ _ _ 2 e) ]; rewrite Hrs; cbn; by rewrite He. }
  split; [|split; [done|split; [|split; [done|split; [done|split; [|split]]]]]].
  - unfold beforeCreate_tasks. by rewrite Hown.
  - rewrite Hres, parallel_ok_iff, Hrs. split.
    + intros Hall.
      destruct r1 as [e|x1]; [by destruct (Hall 0 e)|].
      destruct r2 as [e|x2]; [by destruct (Hall 1 e)|].
      destruct r3 as [e|x3]; [by destruct (Hall 2 e)|].
      by exists x1, x2, x3.
    + intros (x1 & x2 & x3 & -> & -> & ->) i e.
      by destruct i as [|[|[|i]]].
  - intros e He Huniq. destruct (Hfail e He) as [e' He'].
    rewrite He'. f_equal. apply Huniq. by apply Hfrom.
  - intros x Hx. unfold creation in Hx. rewrite createVideo_unfold in Hx.
    fold s in Hx. by destruct (validate env s).1.
  - intros e He Hval. unfold creation. rewrite createVideo_unfold.
    fold s. by rewrite Hval.
Qed.

Lemma beforeCreate_all_or_nothing_witness :
  isOwned owned_video = true
  ∧ ∃ x, (beforeCreate example_constants (example_env example_hash None None) [2; 0; 1]
            (beforeValidate (initial_state owned_video)).2).1 = inr x.
Proof.
  split; [reflexivity|].
  destruct (beforeCreate_all_or_nothing example_constants
              (example_env example_hash None None) [2; 0; 1]
              (initial_state owned_video) eq_refl) as (_ & _ & Hok & _).
  apply Hok. eexists _, _, _. repeat split; vm_compute; reflexivity.
Defined.

(** When the creation of an owned video succeeds, the torrent was encoded
    and the info-hash of the instance is the one parsed from it, which has
    replaced the placeholder of beforeValidate. *)
Lemma createVideo_infoHash_parsed (C : Constants) (env : Env) (sched : list nat)
    (s0 : State) (x : JsValue) :
  isOwned (st_video s0) = true →
  (createVideo C env sched s0).1 = inr x →
  let v' := st_video (createVideo C env sched s0).2 in
  let videoPath :=
    pathUtils_join env (CONFIG_STORAGE_VIDEOS_DIR C) (getVideoFilename (st_video s0)) in
  ∃ torrent,
    createTorrent_result env videoPath (createTorrent_options C (st_video s0)) = inr torrent
    ∧ infoHash v' = parseTorrent_infoHash env torrent
    ∧ (sequelize_validate_rejects env = true → matches_infoHash_pattern (infoHash v'))
    ∧ (matches_infoHash_pattern (parseTorrent_infoHash env torrent) →
       matches_infoHash_pattern (infoHash v'))
    ∧ (parseTorrent_infoHash env torrent ≠ placeholder_infoHash →
       infoHash v' ≠ placeholder_infoHash).
Proof.
  intros Hown0 Hok v' videoPath.
  set (s := (beforeValidate s0).2).
  assert (st_video s = set_infoHash placeholder_infoHash (st_video s0)) as Hv.
  { unfold s. rewrite beforeValidate_state. cbn. by rewrite Hown0. }
  assert (isOwned (st_video s) = true) as Hown by by rewrite Hv.
  assert (createVideo C env sched s0 = beforeCreate C env sched s) as Hcreate.
  { rewrite createVideo_unfold. fold s. rewrite createVideo_unfold in Hok.
    fold s in Hok. by destruct (validate env s).1. }
  unfold v'. rewrite Hcreate in Hok |- *. clear Hcreate v'.
  rewrite beforeCreate_owned in Hok |- * by done.
  destruct (beforeCreate_tasks_run C env s Hown) as [Hrs Hvideo].
  assert (∃ x1, (createTorrentTask C env
            (pathUtils_join env (CONFIG_STORAGE_VIDEOS_DIR C)
               (getVideoFilename (st_video s))) s).1 = inr x1) as [x1 Hx1].
  { pose proof (proj1 (parallel_ok_iff _ _ _) (ex_intro _ x Hok) 0) as H0.
    rewrite Hrs in H0. cbn in H0.
    destruct (createTorrentTask _ _ _ _).1 as [e|x1]; [by destruct (H0 e)|eauto]. }
  apply createTorrentTask_ok in Hx1 as (torrent & Htorrent & Hcommit & Hvalid).
  rewrite parallel_unfold. cbn [snd]. rewrite Hvideo, Hcommit.
  rewrite Hv in Htorrent. exists torrent.
  split; [exact Htorrent|]. split; [reflexivity|]. cbn [infoHash set_infoHash].
  split; [|split; [done|done]].
  intros Hrej. by apply isVideoInfoHashValid_pattern, Hvalid.
Qed.

(** The text of a digest of twenty bytes matches /^[0-9a-f]{40}$/. *)
Lemma hex_of_byte_valid (b : byte) :
  forallb is_lower_hex (list_ascii_of_string (hex_of_byte b)) = true.
Proof. destruct b; reflexivity. Qed.

Lemma hex_of_bytes_cons (b : byte) (bs : list byte) :
  hex_of_bytes (b :: bs) =
  String (hex_digit (Byte.to_nat b / 16))
    (String (hex_digit (Byte.to_nat b mod 16)) (hex_of_bytes bs)).
Proof. reflexivity. Qed.

Lemma hex_of_bytes_valid (bs : list byte) :
  String.length (hex_of_bytes bs) = 2 * length bs
  ∧ forallb is_lower_hex (list_ascii_of_string (hex_of_bytes bs)) = true.
Proof.
  induction bs as [|b bs [IHlen IHhex]]; [done|].
  rewrite hex_of_bytes_cons. split.
  - cbn [String.length length]. rewrite IHlen. lia.
  - pose proof (hex_of_byte_valid b) as Hb. unfold hex_of_byte in Hb.
    cbn [list_ascii_of_string forallb] in Hb |- *.
    rewrite andb_true_r in Hb. rewrite andb_assoc, Hb. exact IHhex.
Qed.

Lemma digest_matches_pattern (digest : list byte) :
  length digest = 20 → matches_infoHash_pattern (hex_of_bytes digest).
Proof.
  intros Hlen. apply isVideoInfoHashValid_pattern. unfold isVideoInfoHashValid.
  destruct (hex_of_bytes_valid digest) as [-> ->]. by rewrite Hlen.
Qed.

(** C1: when the creation of an owned video completes successfully, its
    infoHash matches /^[0-9a-f]{40}$/ and is not the placeholder: the
    placeholder that beforeValidate assigned has been overwritten by the
    info-hash parsed from the torrent that was encoded, which parse-torrent
    gives as the hexadecimal text of a digest. *)
Theorem createVideo_infoHash (C : Constants) (env : Env) (sched : list nat)
    (s0 : State) (x : JsValue) :
  parseTorrent_yields_digests env →
  isOwned (st_video s0) = true →
  (createVideo C env sched s0).1 = inr x →
  let v' := st_video (createVideo C env sched s0).2 in
  let videoPath :=
    pathUtils_join env (CONFIG_STORAGE_VIDEOS_DIR C) (getVideoFilename (st_video s0)) in
  matches_infoHash_pattern (infoHash v')
  ∧ infoHash v' ≠ placeholder_infoHash
  ∧ ∃ torrent,
      createTorrent_result env videoPath (createTorrent_options C (st_video s0)) = inr torrent
      ∧ infoHash v' = parseTorrent_infoHash env torrent.
Proof.
  intros Hdigest Hown Hok v' videoPath.
  destruct (createVideo_infoHash_parsed C env sched s0 x Hown Hok)
    as (torrent & Htorrent & Hhash & _).
  fold v' in Hhash.
  destruct (Hdigest torrent) as (digest & Hlen & Hparsed & Hfresh).
  rewrite Hhash, Hparsed.
  split; [by apply digest_matches_pattern|]. split; [done|].
  exists torrent. by rewrite <- Hparsed.
Qed.

Lemma example_env_yields_digests (u b : option Error) :
  parseTorrent_yields_digests (example_env example_hash u b).
Proof.
  intros torrent. exists example_digest.
  split; [reflexivity|]. split; [reflexivity|]. discriminate.
Defined.

Lemma createVideo_infoHash_witness :
  let env := example_env example_hash None None in
  let v' := st_video (createVideo example_constants env [1; 2] (initial_state owned_video)).2 in
  isOwned owned_video = true
  ∧ matches_infoHash_pattern (infoHash v')
  ∧ infoHash v' ≠ placeholder_infoHash.
Proof.
  intros env v'. split; [reflexivity|].
  destruct (createVideo_infoHash example_constants env
              [1; 2] (initial_state owned_video)
              (JsArr [ JsNull; JsStr (getThumbnailName owned_video);
                       JsStr (getPreviewName owned_video) ])
              (example_env_yields_digests None None)
              eq_refl eq_refl) as (Hpattern & Hfresh & _).
  by split.
Defined.

(** The hooks of the creation change nothing but the info-hash. *)
Lemma createVideo_video (C : Constants) (env : Env) (sched : list nat) (s : State) :
  st_video (createVideo C env sched s).2 = st_video s
  ∨ ∃ h, st_video (createVideo C env sched s).2 = set_infoHash h (st_video s).
Proof.
  rewrite createVideo_unfold. cbn zeta.
  set (s1 := (beforeValidate s).2).
  assert (st_video s1 = st_video s
          ∨ st_video s1 = set_infoHash placeholder_infoHash (st_video s)) as Hs1.
  { unfold s1. rewrite beforeValidate_state. cbn.
    destruct (isOwned (st_video s)); auto. }
  assert (st_video (beforeCreate C env sched s1).2 = st_video s1
          ∨ ∃ h, st_video (beforeCreate C env sched s1).2 = set_infoHash h (st_video s1))
    as Hbc.
  { destruct (isOwned (st_video s1)) eqn:Hown.
    - rewrite beforeCreate_owned by done. rewrite parallel_unfold. cbn [snd].
      destruct (beforeCreate_tasks_run C env s1 Hown) as [_ ->].
      apply createTorrentTask_video.
    - left. unfold beforeCreate. munfold. by rewrite Hown. }
  destruct (validate env s1).1.
  - cbn. destruct Hs1 as [->| ->]; eauto.
  - destruct Hbc as [->|[h ->]], Hs1 as [->| ->]; eauto.
Qed.

(** C5: isOwned() is true exactly when remoteId is null.  This holds of
    every instance, whatever its fields were set to; the creation and the
    commit of the info-hash leave remoteId as it was. *)
Theorem isOwned_iff_remoteId_null :
  (∀ v : Video, isOwned v = true ↔ remoteId v = None)
  ∧ (∀ (h : string) (v : Video),
       remoteId (set_infoHash h v) = remoteId v
       ∧ (isOwned (set_infoHash h v) = true ↔ remoteId (set_infoHash h v) = None))
  ∧ (∀ (C : Constants) (env : Env) (sched : list nat) (s : State),
       let v' := st_video (createVideo C env sched s).2 in
       remoteId v' = remoteId (st_video s)
       ∧ (isOwned v' = true ↔ remoteId v' = None)).
Proof.
  split; [apply isOwned_true_iff|]. split.
  - intros h v. split; [reflexivity|apply isOwned_true_iff].
  - intros C env sched s v'. split; [|apply isOwned_true_iff].
    unfold v'. by destruct (createVideo_video C env sched s) as [->|[h ->]].
Qed.

(** ** Search *)

(** The dispatcher takes exactly one of five branches, by the name of the
    field.  magnetUri: the only condition is the equality of infoHash with
    the info-hash decoded from the value.  tags: the only condition is the
    membership of id in the tag subquery on the pattern %value%.  host: no
    condition on the video, the pod include is required and filters the
    host on %value%, so that a video whose author has no pod is not
    admitted.  author: the author include filters the name on %value%.
    Any other field but __proto__: the condition is that field LIKE
    %value%.  The query is built for every field name, and what the storage
    answers is handed back. *)
Lemma search_dispatch_branches (env : Env) (value field : string)
    (start count : Z) (sort : string) :
  let q := search_query env value field start count sort in
  let pattern := "%" +:+ value +:+ "%" in
  let plain_pod := {| pi_required := false; pi_where := None |} in
  let author_of (pod : PodInclude) (w : option (gmap string Cond)) :=
    ({| ai_include := [ pod ]; ai_where := w |}, {| ti_where := None |}) in
  (q_offset q = start ∧ q_limit q = count ∧ q_distinct q = true
   ∧ q_order q = [ modelUtils_getSort env sort; [ "Tag"; "name"; "ASC" ] ])
  ∧ searchAndPopulateAuthorAndPodAndTags env value field start count sort
    = sequelize_findAndCountAll env q
  ∧ (field = "magnetUri" →
       q_where q = {[ "infoHash" := CondEq (magnetUtil_decode_infoHash env value) ]}
       ∧ q_include q = author_of plain_pod None)
  ∧ (field = "tags" →
       q_where q =
         {[ "id" := CondInLiteral
                      (tags_subquery_prefix +:+ sequelize_escape env pattern +:+ ")") ]}
       ∧ q_include q = author_of plain_pod None)
  ∧ (field = "host" →
       q_where q = ∅
       ∧ q_include q =
           author_of {| pi_required := true;
                        pi_where := Some {[ "host" := CondLike pattern ]} |} None
       ∧ ∀ (sql_like : string → string → bool) (v : Video),
           joins_admit sql_like q v =
           match Author_Pod (Author v) with
           | None => false
           | Some pod => sql_like (Pod_host pod) pattern
           end)
  ∧ (field = "author" →
       q_where q = ∅
       ∧ q_include q = author_of plain_pod (Some {[ "name" := CondLike pattern ]})
       ∧ ∀ (sql_like : string → string → bool) (v : Video),
           joins_admit sql_like q v = sql_like (Author_name (Author v)) pattern)
  ∧ (field ∉ [ "magnetUri"; "tags"; "host"; "author" ] → field ≠ "__proto__" →
       q_where q = {[ field := CondLike pattern ]}
       ∧ q_include q = author_of plain_pod None)
  ∧ (field ≠ "host" → field ≠ "author" →
       ∀ (sql_like : string → string → bool) (v : Video),
         joins_admit sql_like q v = true).
Proof.
  intros q pattern plain_pod author_of.
  split; [done|]. split.
  { unfold searchAndPopulateAuthorAndPodAndTags. fold q.
    by destruct (sequelize_findAndCountAll env q) as [err|[rows total]]. }
  unfold q, search_query, search_dispatch.
  split; [|split; [|split; [|split; [|split]]]].
  - intros ->. cbn. by rewrite insert_empty.
  - intros ->. by cbn.
  - intros ->. cbn. split; [done|]. split; [done|]. intros sql_like v.
    unfold joins_admit, authorInclude_admits, podInclude_admits, column_holds. cbn.
    destruct (Author_Pod (Author v)) as [pod|]; [|done].
    rewrite lookup_singleton_eq. cbn. by rewrite andb_true_r.
  - intros ->. cbn. split; [done|]. split; [done|]. intros sql_like v.
    unfold joins_admit, authorInclude_admits, podInclude_admits, column_holds. cbn.
    rewrite lookup_singleton_eq. cbn. by rewrite andb_true_r.
  - intros Hnot Hproto. rewrite !not_elem_of_cons in Hnot.
    destruct Hnot as (H1 & H2 & H3 & H4 & _).
    apply String.eqb_neq in H1, H2, H3, H4, Hproto. rewrite H1, H2, H3, H4. cbn.
    unfold js_assign. rewrite Hproto. by rewrite insert_empty.
  - intros Hhost Hauthor sql_like v.
    apply String.eqb_neq in Hhost, Hauthor. rewrite Hhost, Hauthor.
    by destruct (String.eqb field "magnetUri"), (String.eqb field "tags").
Qed.

Lemma search_dispatch_branches_witness :
  let env := example_env example_hash None None in
  joins_admit (λ _ _, true) (search_query env "example" "host" 0 15 "createdAt") owned_video
    = false
  ∧ q_where (search_query env "Demo" "name" 0 15 "createdAt")
    = {[ "name" := CondLike "%Demo%" ]}.
Proof.
  intros env. split.
  - destruct (search_dispatch_branches env "example" "host" 0 15 "createdAt")
      as (_ & _ & _ & _ & Hhost & _).
    destruct (Hhost eq_refl) as (_ & _ & Hjoin).
    exact (Hjoin (λ _ _, true) owned_video).
  - destruct (search_dispatch_branches env "Demo" "name" 0 15 "createdAt")
      as (_ & _ & _ & _ & _ & _ & Hother & _).
    apply Hother; [|discriminate]. rewrite !not_elem_of_cons.
    repeat split; try discriminate. apply not_elem_of_nil.
Defined.

(** C4, at the field name __proto__.  The name is none of the four that
    the dispatcher knows, so the default branch is taken; its assignment
    where[field] = ... replaces the prototype of the where-clause and adds no
    condition.  The query of the search is then the query of listForApi: no
    substring filter on the field, and every video is admitted. *)
Theorem search_on_proto_is_unfiltered (env : Env) (value : string)
    (start count : Z) (sort : string) :
  let q := search_query env value "__proto__" start count sort in
  ("__proto__" ∉ [ "magnetUri"; "tags"; "host"; "author" ])
  ∧ q_where q = ∅
  ∧ q_where q ≠ {[ "__proto__" := CondLike ("%" +:+ value +:+ "%") ]}
  ∧ q = listForApi_query env start count sort
  ∧ ∀ (sql_like : string → string → bool) (v : Video), joins_admit sql_like q v = true.
Proof.
  intros q. split.
  { rewrite !not_elem_of_cons. repeat split; try discriminate. apply not_elem_of_nil. }
  split; [done|]. split; [|done].
  intros H. apply (f_equal (λ m : gmap string Cond, m !! "__proto__")) in H.
  by rewrite lookup_singleton_eq in H.
Qed.

Lemma notifyFriends_never_fails_witness :
  let env := example_env example_hash (Some (IOError "ENOENT")) None in
  let s := initial_state owned_video in
  let broadcast_failed := Some (IOError "ECONNREFUSED") in
  (afterDestroy example_constants (with_broadcast_result broadcast_failed env) [] s).1
    = inl (IOError "ENOENT")
  ∧ ∃ path, fs_unlink_result env path = Some (IOError "ENOENT").
Proof.
  intros env s broadcast_failed.
  split; [reflexivity|].
  destruct (notifyFriends_never_fails example_constants env [] s broadcast_failed)
    as (_ & _ & _ & Herr).
  destruct (Herr (IOError "ENOENT") eq_refl) as (path & Hpath & _).
  by exists path.
Defined.

(** ** The scenarios of the specification, run on the model *)

Example destroy_owned_video_calls :
  st_calls (afterDestroy example_constants (example_env example_hash None None) [ 4; 0 ]
              (initial_state owned_video)).2
  = [ FsUnlink "/var/peertube/thumbnails/6e9a1c0e-5c1f-4b6a-9a55-0c9d3f3b2a11.jpg";
      FsUnlink "/var/peertube/videos/6e9a1c0e-5c1f-4b6a-9a55-0c9d3f3b2a11.mp4";
      FsUnlink "/var/peertube/torrents/6e9a1c0e-5c1f-4b6a-9a55-0c9d3f3b2a11.torrent";
      FsUnlink "/var/peertube/previews/6e9a1c0e-5c1f-4b6a-9a55-0c9d3f3b2a11.jpg";
      FriendsRemoveVideo
        [ ("name", JsStr "Demo");
          ("remoteId", JsStr "6e9a1c0e-5c1f-4b6a-9a55-0c9d3f3b2a11") ] ].
Proof. reflexivity. Qed.

Example destroy_mirrored_video_calls :
  st_calls (afterDestroy example_constants (example_env example_hash None None) []
              (initial_state mirrored_video)).2
  = [ FsUnlink "/var/peertube/thumbnails/0b7d2f64-1111-4c7e-8a3e-2f6d0e9c4b22.jpg" ].
Proof. reflexivity. Qed.

Example create_fails_with_the_first_error :
  let env := example_env example_hash None None in
  let failing :=
    {| createTorrent_result := λ _ _, inl (IOError "ENOENT");
       parseTorrent_infoHash := parseTorrent_infoHash env;
       fs_writeFile_result := fs_writeFile_result env;
       fs_readFile_result := fs_readFile_result env;
       fs_unlink_result := fs_unlink_result env;
       ffmpeg_thumbnail_result := λ _ _, Some (IOError "ffmpeg exited with code 1");
       pathUtils_join := pathUtils_join env;
       magnetUtil_encode := magnetUtil_encode env;
       magnetUtil_decode_infoHash := magnetUtil_decode_infoHash env;
       sequelize_escape := sequelize_escape env;
       sequelize_findAndCountAll := sequelize_findAndCountAll env;
       sequelize_validate_rejects := sequelize_validate_rejects env;
       modelUtils_getSort := modelUtils_getSort env;
       validator_isUUID4 := validator_isUUID4 env;
       isVideoNameValid := isVideoNameValid env;
       isVideoDescriptionValid := isVideoDescriptionValid env;
       isVideoDurationValid := isVideoDurationValid env;
       friends_broadcast_result := friends_broadcast_result env |} in
  (createVideo example_constants failing [ 2; 0; 1 ] (initial_state owned_video)).1
    = inl (IOError "ffmpeg exited with code 1")
  ∧ (createVideo example_constants failing [ 0; 2; 1 ] (initial_state owned_video)).1
    = inl (IOError "ENOENT").
Proof. split; reflexivity. Qed.

Example mirrored_video_magnet :
  generateMagnetUri example_constants
    {| createTorrent_result := λ _ _, inl (IOError "unused");
       parseTorrent_infoHash := λ _, EmptyString;
       fs_writeFile_result := λ _ _, None;
       fs_readFile_result := λ _, inl (IOError "unused");
       fs_unlink_result := λ _, None;
       ffmpeg_thumbnail_result := λ _ _, None;
       pathUtils_join := λ a b, a +:+ b;
       magnetUtil_encode := λ m,
         inr ("magnet:?xt=urn:btih:" +:+ mh_infoHash m +:+ "&dn=" +:+ mh_name m
              +:+ "&tr=" +:+ mh_announce m +:+ "&ws=" +:+ String.concat "," (mh_urlList m)
              +:+ "&xs=" +:+ mh_xs m);
       magnetUtil_decode_infoHash := λ _, None;
       sequelize_escape := λ s, s;
       sequelize_findAndCountAll := λ _, inr ([], 0);
       sequelize_validate_rejects := false;
       modelUtils_getSort := λ s, [ s; "ASC" ];
       validator_isUUID4 := λ _, true;
       isVideoNameValid := λ _, true;
       isVideoDescriptionValid := λ _, true;
       isVideoDurationValid := λ _, true;
       friends_broadcast_result := λ _, None |}
    mirrored_video
  = inr ("magnet:?xt=urn:btih:da39a3ee5e6b4b0d3255bfef95601890afd80709&dn=Demo"
         +:+ "&tr=wss://pod2.example.org/tracker/socket"
         +:+ "&ws=https://pod2.example.org/static/webseed/abc.mp4"
         +:+ "&xs=https://pod2.example.org/static/torrents/abc.torrent").
Proof. reflexivity. Qed.

(** * Further properties of the model

    ** Strings *)

Lemma string_app_cons (c : ascii) (s1 s2 : string) :
  String c s1 +:+ s2 = String c (s1 +:+ s2).
Proof. reflexivity. Qed.

Lemma string_app_assoc (s1 s2 s3 : string) :
  (s1 +:+ s2) +:+ s3 = s1 +:+ (s2 +:+ s3).
Proof.
  induction s1 as [|c s1 IH]; [done|].
  rewrite !string_app_cons. by f_equal.
Qed.

Lemma string_app_length (s1 s2 : string) :
  String.length (s1 +:+ s2) = String.length s1 + String.length s2.
Proof.
  induction s1 as [|c s1 IH]; [done|].
  rewrite string_app_cons. cbn. by f_equal.
Qed.

(** Two strings that give the same string once the same suffix is appended
    are equal. *)
Lemma string_app_inj_r (t s1 s2 : string) : s1 +:+ t = s2 +:+ t → s1 = s2.
Proof.
  revert s2. induction s1 as [|c s1 IH]; intros [|d s2] H.
  - done.
  - change (t = String d (s2 +:+ t)) in H.
    apply (f_equal String.length) in H. cbn in H.
    rewrite string_app_length in H. lia.
  - change (String c (s1 +:+ t) = t) in H.
    apply (f_equal String.length) in H. cbn in H.
    rewrite string_app_length in H. lia.
  - rewrite !string_app_cons in H. injection H as -> H. f_equal. by apply IH.
Qed.

(** ** The calls of the creation *)

Lemma state_eta (s : State) : {| st_video := st_video s; st_calls := st_calls s |} = s.
Proof. by destruct s. Qed.

Lemma calls_since_app (s s' : State) (l : list Call) :
  st_calls s' = st_calls s ++ l → calls_since s s' = l.
Proof. intros H. unfold calls_since. rewrite H. by rewrite drop_app_length. Qed.

(** What the first task does to the state, by the answers of the encoder
    and of the file system. *)
Lemma createTorrentTask_state (C : Constants) (env : Env) (videoPath : string) (s : State) :
  let v := st_video s in
  let options := createTorrent_options C v in
  let torrentPath := CONFIG_STORAGE_TORRENTS_DIR C +:+ getTorrentName v in
  (createTorrentTask C env videoPath s).2 =
  match createTorrent_result env videoPath options with
  | inl _ =>
      {| st_video := v; st_calls := st_calls s ++ [ CreateTorrent videoPath options ] |}
  | inr torrent =>
      {| st_video :=
           match fs_writeFile_result env torrentPath torrent with
           | Some _ => v
           | None => set_infoHash (parseTorrent_infoHash env torrent) v
           end;
         st_calls :=
           st_calls s ++ [ CreateTorrent videoPath options;
                           FsWriteFile torrentPath torrent ] |}
  end.
Proof.
  unfold createTorrentTask, validate_asCallback, validate. munfold. cbn.
  destruct (createTorrent_result env _ _) as [err|torrent]; [done|]. cbn.
  rewrite <- app_assoc. cbn.
  destruct (fs_writeFile_result env _ _) as [err|]; [done|]. cbn.
  destruct (validation_errors env _); [done|].
  by destruct (sequelize_validate_rejects env).
Qed.

(** The state in which beforeCreate leaves an owned video. *)
Lemma beforeCreate_state (C : Constants) (env : Env) (sched : list nat) (s : State) :
  isOwned (st_video s) = true →
  let v := st_video s in
  let videoPath := pathUtils_join env (CONFIG_STORAGE_VIDEOS_DIR C) (getVideoFilename v) in
  let s1 := (createTorrentTask C env videoPath s).2 in
  (beforeCreate C env sched s).2 =
  {| st_video := st_video s1;
     st_calls :=
       st_calls s1 ++
       [ FfmpegThumbnail videoPath
           {| th_filename := getThumbnailName v; th_count := 1;
              th_folder := CONFIG_STORAGE_THUMBNAILS_DIR C;
              th_size := Some (THUMBNAILS_SIZE C) |};
         FfmpegThumbnail videoPath
           {| th_filename := getPreviewName v; th_count := 1;
              th_folder := CONFIG_STORAGE_PREVIEWS_DIR C;
              th_size := None |} ] |}.
Proof.
  intros Hown v videoPath s1.
  rewrite beforeCreate_owned by done. rewrite parallel_unfold. cbn [snd].
  unfold beforeCreate_tasks. rewrite Hown. fold v videoPath.
  rewrite !run_tasks_cons. cbn [run_tasks fst snd].
  rewrite !createThumbnail_state, !createPreview_state, !generateImage_state.
  cbn [fst snd st_video st_calls]. unfold mret, M_ret. cbn [fst snd]. fold s1.
  rewrite <- app_assoc. cbn [app].
  destruct (createTorrentTask_video C env videoPath s) as [Hv|[h Hv]];
    fold s1 in Hv; rewrite Hv; reflexivity.
Qed.

Lemma beforeCreate_issued_calls (C : Constants) (env : Env) (sched : list nat) (s : State) :
  isOwned (st_video s) = true →
  st_calls (beforeCreate C env sched s).2
  = st_calls s ++ beforeCreate_issued C env (st_video s).
Proof.
  intros Hown. rewrite beforeCreate_state by done. cbn [st_calls].
  rewrite createTorrentTask_state. unfold beforeCreate_issued.
  destruct (createTorrent_result env _ _) as [err|torrent];
    cbn [st_calls]; rewrite <- app_assoc; reflexivity.
Qed.

Lemma getVideoFilename_set_infoHash (h : string) (v : Video) :
  getVideoFilename (set_infoHash h v) = getVideoFilename v.
Proof. reflexivity. Qed.

Lemma getTorrentName_set_infoHash (h : string) (v : Video) :
  getTorrentName (set_infoHash h v) = getTorrentName v.
Proof. reflexivity. Qed.

Lemma createTorrent_options_set_infoHash (C : Constants) (h : string) (v : Video) :
  createTorrent_options C (set_infoHash h v) = createTorrent_options C v.
Proof. reflexivity. Qed.

(** The state in which the creation leaves an owned video. *)
Lemma createVideo_owned_state (C : Constants) (env : Env) (sched : list nat) (s0 : State) :
  isOwned (st_video s0) = true →
  let s := with_infoHash placeholder_infoHash s0 in
  createVideo C env sched s0 =
  match (validate env s).1 with
  | Some msg => (inl (ValidationError msg), s)
  | None => beforeCreate C env sched s
  end.
Proof.
  intros Hown s. rewrite createVideo_unfold. cbn zeta.
  rewrite beforeValidate_state. cbn [snd]. by rewrite Hown.
Qed.

(** ** beforeCreate on the event loop *)

(** Nothing is followed once the final callback has been called. *)
Lemma run_events_final (events : list nat) (g : Group) (st : State) (r : Outcome) :
  g_final g = Some r → run_events events g st = (g, st).
Proof. intros H. destruct events; simpl; rewrite H; reflexivity. Qed.

(** Following two lists of completions is following the first, then the
    second. *)
Lemma run_events_app (events1 events2 : list nat) (g : Group) (st : State) :
  run_events (events1 ++ events2) g st
  = run_events events2 (run_events events1 g st).1 (run_events events1 g st).2.
Proof.
  revert g st. induction events1 as [|i es IH]; intros g st.
  - simpl. destruct (g_final g); reflexivity.
  - destruct (g_final g) as [r|] eqn:Hf.
    + rewrite !(run_events_final _ _ _ r Hf). reflexivity.
    + simpl. rewrite Hf.
      destruct (g_procs g !! i) as [[r|k]|]; try apply IH.
      unfold mbind, M_bind. destruct (k st) as [p st']. apply IH.
Qed.

Lemma all_called_Some (procs : list Proc) (xs : list JsValue) (i : nat) (p : Proc) :
  all_called procs = Some xs → procs !! i = Some p → ∃ x, p = Called (inr x).
Proof.
  revert xs i. induction procs as [|q procs IH]; intros xs i Hall Hi.
  - discriminate.
  - simpl in Hall. destruct q as [[e|x]|k]; try discriminate.
    destruct (all_called procs) as [ys|] eqn:Hys; try discriminate.
    destruct i as [|i].
    + injection Hi as <-. eauto.
    + simpl in Hi. eauto.
Qed.

(** The final callback is called for a reason, and as soon as there is
    one. *)
Lemma settle_justified (i : nat) (k : M Proc) (p : Proc) (g : Group) :
  g_procs g !! i = Some (Waiting k) →
  justified g → g_final g = None → justified (settle i p g).
Proof.
  intros Hi Hj Hf. unfold justified in Hj. rewrite Hf in Hj. destruct Hj as [Hne Hnone].
  assert (Hlt : i < length (g_procs g)) by (eapply lookup_lt_Some; eauto).
  assert (Hp : <[i := p]> (g_procs g) !! i = Some p)
    by (apply list_lookup_insert_eq; exact Hlt).
  assert (Hquiet : (∀ e, p ≠ Called (inl e)) →
            ∀ j e, <[i := p]> (g_procs g) !! j ≠ Some (Called (inl e))).
  { intros Hpe j e Hj. destruct (decide (i = j)) as [->|Hij].
    - rewrite Hp in Hj. injection Hj as ->. eapply Hpe; reflexivity.
    - rewrite list_lookup_insert_ne in Hj by exact Hij. eapply Hne; eauto. }
  unfold justified, settle; simpl.
  destruct p as [[e|x]|k'].
  - eauto.
  - destruct (all_called (<[i := Called (inr x)]> (g_procs g))) as [xs|] eqn:Hall.
    + eauto.
    + split; [|reflexivity]. apply Hquiet. discriminate.
  - split.
    + apply Hquiet. discriminate.
    + destruct (all_called (<[i := Waiting k']> (g_procs g))) as [xs|] eqn:Hall; [|reflexivity].
      destruct (all_called_Some _ _ _ _ Hall Hp) as [x Hx]. discriminate.
Qed.

Lemma run_events_justified (events : list nat) (g : Group) (st : State) :
  justified g → justified (run_events events g st).1.
Proof.
  revert g st. induction events as [|i es IH]; intros g st Hj.
  - simpl. destruct (g_final g); exact Hj.
  - destruct (g_final g) as [r|] eqn:Hf.
    + rewrite (run_events_final _ _ _ r Hf). exact Hj.
    + simpl. rewrite Hf.
      destruct (g_procs g !! i) as [[r|k]|] eqn:Hi; try (apply IH; exact Hj).
      unfold mbind, M_bind. destruct (k st) as [p st'].
      apply IH. eapply settle_justified; eauto.
Qed.

(** What every callback preserves holds once the completions have been
    followed. *)
Lemma run_events_invariant (Inv : list Proc → State → Prop) :
  (∀ procs st i k, Inv procs st → procs !! i = Some (Waiting k) →
     Inv (<[i := (k st).1]> procs) (k st).2) →
  ∀ events g st, Inv (g_procs g) st →
    Inv (g_procs (run_events events g st).1) (run_events events g st).2.
Proof.
  intros Hstep events. induction events as [|i es IH]; intros g st Hinv.
  - simpl. destruct (g_final g); exact Hinv.
  - destruct (g_final g) as [r|] eqn:Hf.
    + rewrite (run_events_final _ _ _ r Hf). exact Hinv.
    + simpl. rewrite Hf.
      destruct (g_procs g !! i) as [[r|k]|] eqn:Hi; try (apply IH; exact Hinv).
      unfold mbind, M_bind. specialize (Hstep _ _ _ _ Hinv Hi).
      destruct (k st) as [p st']. apply IH. exact Hstep.
Qed.

Lemma run_events_cons (i : nat) (events : list nat) (g : Group) (st : State) :
  g_final g = None →
  run_events (i :: events) g st
  = match g_procs g !! i with
    | Some (Waiting k) => run_events events (settle i (k st).1 g) (k st).2
    | _ => run_events events g st
    end.
Proof.
  intros Hf. simpl. rewrite Hf.
  destruct (g_procs g !! i) as [[r|k]|]; try reflexivity.
  unfold mbind, M_bind. destruct (k st); reflexivity.
Qed.

(** The validation reads the instance and leaves the state as it is. *)
Lemma validate_asCallback_state (env : Env) (s : State) :
  (validate_asCallback env s).2 = s.
Proof.
  unfold validate_asCallback, validate, mbind, M_bind, get_video, mret, M_ret.
  destruct (validation_errors env (st_video s)); [reflexivity|].
  destruct (sequelize_validate_rejects env); reflexivity.
Qed.

Lemma validate_asCallback_video (env : Env) (s s' : State) :
  st_video s = st_video s' →
  (validate_asCallback env s).1 = (validate_asCallback env s').1.
Proof.
  intros Hv.
  unfold validate_asCallback, validate, mbind, M_bind, get_video, mret, M_ret.
  rewrite Hv.
  destruct (validation_errors env (st_video s')); [reflexivity|].
  destruct (sequelize_validate_rejects env); reflexivity.
Qed.

Section BeforeCreateLoop.

Variable C : Constants.
Variable env : Env.
Variable s0 : State.

(** The callbacks of the first task, at the stage where each is run. *)
Lemma createTorrent_callback_step :
  createTorrent_callback C env (loop_videoPath C env s0)
    (createTorrent_options C (st_video s0)) (after_start C env s0)
  = match createTorrent_result env (loop_videoPath C env s0)
            (createTorrent_options C (st_video s0)) with
    | inl err => (Called (inl err), after_start C env s0)
    | inr torrent =>
        (Waiting (writeFile_callback env (loop_torrentPath C s0) torrent),
         after_write C env s0 torrent)
    end.
Proof.
  unfold createTorrent_callback.
  destruct (createTorrent_result env _ _) as [err|torrent]; [reflexivity|].
  unfold after_write, after_start, mbind, M_bind, get_video, call, mret, M_ret; simpl.
  rewrite <- app_assoc. reflexivity.
Qed.

Lemma writeFile_callback_step (torrent : list byte) :
  writeFile_callback env (loop_torrentPath C s0) torrent (after_write C env s0 torrent)
  = match fs_writeFile_result env (loop_torrentPath C s0) torrent with
    | Some err => (Called (inl err), after_write C env s0 torrent)
    | None =>
        (Waiting (mret (Called (validation_outcome C env s0 torrent)) : M Proc),
         after_commit C env s0 torrent)
    end.
Proof.
  unfold writeFile_callback.
  destruct (fs_writeFile_result env _ _) as [err|]; [reflexivity|].
  unfold validation_outcome.
  change ((modify_video (set_infoHash (parseTorrent_infoHash env torrent));;
           r ← validate_asCallback env; mret (Waiting (mret (Called r) : M Proc)))
            (after_write C env s0 torrent))
    with (let '(r, s') := validate_asCallback env (after_commit C env s0 torrent) in
          (Waiting (mret (Called r) : M Proc), s')).
  pose proof (validate_asCallback_state env (after_commit C env s0 torrent)) as Hs.
  destruct (validate_asCallback env (after_commit C env s0 torrent)) as [r s'].
  simpl in Hs. subst s'. reflexivity.
Qed.

(** A callback takes the tasks from one stage to another. *)
Lemma loop_stage_step (procs : list Proc) (st : State) (i : nat) (k : M Proc) :
  LoopStage C env s0 procs st → procs !! i = Some (Waiting k) →
  LoopStage C env s0 (<[i := (k st).1]> procs) (k st).2.
Proof.
  intros (p1 & p2 & p3 & -> & H1 & H2 & H3) Hi.
  destruct i as [|[|[|i]]]; simpl in Hi; try discriminate.
  - injection Hi as ->. exists (k st).1, p2, p3.
    split; [reflexivity|]. split; [|split; assumption].
    inversion H1; subst.
    + rewrite createTorrent_callback_step.
      destruct (createTorrent_result env _ _) as [err|torrent] eqn:HE; simpl.
      * apply stage_not_encoded; exact HE.
      * apply stage_writing; exact HE.
    + rewrite writeFile_callback_step.
      destruct (fs_writeFile_result env _ _) as [err|] eqn:HW; simpl.
      * apply stage_not_written; assumption.
      * apply stage_validating; assumption.
    + simpl. apply stage_validated; assumption.
  - injection Hi as ->. exists p1, (k st).1, p3.
    split; [reflexivity|]. inversion H2; subst. simpl.
    split; [exact H1|]. split; [constructor|exact H3].
  - injection Hi as ->. exists p1, p2, (k st).1.
    split; [reflexivity|]. inversion H3; subst. simpl.
    split; [exact H1|]. split; [exact H2|constructor].
Qed.

(** Starting the three tasks issues their first calls. *)
Lemma beforeCreate_tasks_started :
  start_tasks (beforeCreate_tasks_async C env (st_video s0))
    {| g_procs := []; g_final := None |} s0
  = ({| g_procs :=
          [ Waiting (createTorrent_callback C env (loop_videoPath C env s0)
                       (createTorrent_options C (st_video s0)));
            Waiting (mret (Called (thumbnail_outcome C env s0)) : M Proc);
            Waiting (mret (Called (preview_outcome C env s0)) : M Proc) ];
        g_final := None |},
     after_start C env s0).
Proof.
  unfold after_start, started_calls. simpl.
  unfold mbind, M_bind, get_video, call, mret, M_ret; simpl.
  rewrite <- !app_assoc. reflexivity.
Qed.

Lemma loop_stage_started :
  LoopStage C env s0
    [ Waiting (createTorrent_callback C env (loop_videoPath C env s0)
                 (createTorrent_options C (st_video s0)));
      Waiting (mret (Called (thumbnail_outcome C env s0)) : M Proc);
      Waiting (mret (Called (preview_outcome C env s0)) : M Proc) ]
    (after_start C env s0).
Proof.
  eexists _, _, _. split; [reflexivity|].
  split; [apply stage_encoding|]. split; constructor.
Qed.

Ltac loop_run :=
  repeat first
    [ rewrite run_events_cons by reflexivity
    | erewrite run_events_final by reflexivity
    | progress cbn -[run_events createTorrent_callback writeFile_callback after_start
                     after_write after_commit validation_outcome thumbnail_outcome
                     preview_outcome]
    | progress unfold mret, M_ret, settle
    | rewrite createTorrent_callback_step
    | rewrite writeFile_callback_step
    | match goal with
      | H : ?x = _ |- context [match ?x with _ => _ end] => rewrite H
      | |- context [match ?x with _ => _ end] =>
          lazymatch x with
          | context [match _ with _ => _ end] => fail
          | _ => destruct x eqn:?
          end
      end ].

(** No task waits for more than three operations: three rounds of
    completions suffice for the final callback to be called. *)
Lemma loop_completes (g : Group) (st : State) :
  LoopStage C env s0 (g_procs g) st → justified g →
  ∃ r, g_final (run_events [0; 1; 2; 0; 1; 2; 0; 1; 2] g st).1 = Some r.
Proof.
  intros (p1 & p2 & p3 & Hprocs & H1 & H2 & H3) Hj.
  destruct g as [procs [r|]]; simpl in Hprocs; subst procs.
  { exists r. reflexivity. }
  unfold justified in Hj; simpl in Hj. destruct Hj as [Hne Hnone].
  pose proof (Hne 0) as Hne0. pose proof (Hne 1) as Hne1. pose proof (Hne 2) as Hne2.
  simpl in Hne0, Hne1, Hne2. clear Hne.
  destruct (thumbnail_outcome C env s0) eqn:Hr2;
    destruct (preview_outcome C env s0) eqn:Hr3;
    inversion H1; subst; inversion H2; subst; inversion H3; subst;
    try (exfalso; eapply Hne0; reflexivity);
    try (exfalso; eapply Hne1; reflexivity);
    try (exfalso; eapply Hne2; reflexivity);
    try match goal with
        | H : Called _ = Called (validation_outcome _ _ _ ?t) |- _ =>
            destruct (validation_outcome C env s0 t) eqn:?
        | H : Called (validation_outcome _ _ _ ?t) = _ |- _ =>
            destruct (validation_outcome C env s0 t) eqn:?
        | |- context [Called (validation_outcome _ _ _ ?t)] =>
            destruct (validation_outcome C env s0 t) eqn:?
        end;
    loop_run; eauto;
    try (exfalso; eapply Hne0; reflexivity);
    try (exfalso; eapply Hne1; reflexivity);
    try (exfalso; eapply Hne2; reflexivity);
    try discriminate.
Qed.

(** beforeCreate calls back for an owned video, with the tasks at one of
    their stages. *)
Lemma beforeCreate_async_run (sched : list nat) :
  isOwned (st_video s0) = true →
  ∃ g r,
    (beforeCreate_async C env sched s0).1 = Some r
    ∧ g_final g = Some r
    ∧ justified g
    ∧ LoopStage C env s0 (g_procs g) (beforeCreate_async C env sched s0).2.
Proof.
  intros Hown.
  set (g0 := {| g_procs :=
                  [ Waiting (createTorrent_callback C env (loop_videoPath C env s0)
                               (createTorrent_options C (st_video s0)));
                    Waiting (mret (Called (thumbnail_outcome C env s0)) : M Proc);
                    Waiting (mret (Called (preview_outcome C env s0)) : M Proc) ];
                g_final := None |}).
  assert (Hrun : beforeCreate_async C env sched s0
                 = (g_final (run_events (then_all_complete 3 3 sched) g0
                               (after_start C env s0)).1,
                    (run_events (then_all_complete 3 3 sched) g0
                       (after_start C env s0)).2)).
  { unfold beforeCreate_async, parallel_async.
    unfold mbind at 1, M_bind at 1, get_video at 1. rewrite Hown.
    unfold mbind at 1, M_bind at 1. rewrite beforeCreate_tasks_started.
    unfold mbind at 1, M_bind at 1. fold g0.
    match goal with
    | |- (let '(x, s') := run_events _ ?g _ in _) = _ => change g with g0
    end.
    destruct (run_events _ g0 _); reflexivity. }
  rewrite Hrun. clear Hrun. cbn [fst snd].
  unfold then_all_complete.
  assert (Htail : concat (replicate 3 (seq 0 3)) = [0; 1; 2; 0; 1; 2; 0; 1; 2])
    by reflexivity.
  revert Htail. generalize (concat (replicate 3 (seq 0 3))). intros tail Htail.
  rewrite run_events_app.
  assert (Hj0 : justified g0) by (split; [intros [|[|[|i]]] e; discriminate|reflexivity]).
  pose proof (run_events_justified sched g0 (after_start C env s0) Hj0) as Hj1.
  pose proof (run_events_invariant (LoopStage C env s0) loop_stage_step
                sched g0 (after_start C env s0) loop_stage_started) as Hs1.
  destruct (run_events sched g0 (after_start C env s0)) as [g1 st1].
  cbn [fst snd] in *.
  destruct (loop_completes g1 st1 Hs1 Hj1) as [r Hr]. rewrite <- Htail in Hr.
  exists (run_events tail g1 st1).1, r.
  split; [exact Hr|]. split; [exact Hr|]. split.
  - apply run_events_justified; exact Hj1.
  - apply (run_events_invariant (LoopStage C env s0) loop_stage_step).
    exact Hs1.
Qed.

End BeforeCreateLoop.

Lemma all_called_three (p1 p2 p3 : Proc) (xs : list JsValue) :
  all_called [ p1; p2; p3 ] = Some xs →
  ∃ x1 x2 x3, p1 = Called (inr x1) ∧ p2 = Called (inr x2) ∧ p3 = Called (inr x3)
              ∧ xs = [ x1; x2; x3 ].
Proof.
  simpl. destruct p1 as [[e1|x1]|k1]; try discriminate.
  destruct p2 as [[e2|x2]|k2]; try discriminate.
  destruct p3 as [[e3|x3]|k3]; try discriminate.
  intros [= <-]. eauto 10.
Qed.

(** What the final callback of beforeCreate received, from the stages of
    the three tasks at that moment. *)
Lemma loop_result (C : Constants) (env : Env) (s0 : State) (g : Group) (st : State)
    (r : Outcome) :
  g_final g = Some r → justified g → LoopStage C env s0 (g_procs g) st →
  ∃ p1 p2 p3,
    TorrentStage C env s0 p1 st
    ∧ ImageStage (thumbnail_outcome C env s0) p2
    ∧ ImageStage (preview_outcome C env s0) p3
    ∧ match r with
      | inl e => p1 = Called (inl e) ∨ p2 = Called (inl e) ∨ p3 = Called (inl e)
      | inr x =>
          ∃ x1 x2 x3, p1 = Called (inr x1) ∧ p2 = Called (inr x2)
                      ∧ p3 = Called (inr x3) ∧ x = JsArr [ x1; x2; x3 ]
      end.
Proof.
  intros Hf Hj (p1 & p2 & p3 & Hprocs & H1 & H2 & H3).
  exists p1, p2, p3. split; [exact H1|]. split; [exact H2|]. split; [exact H3|].
  unfold justified in Hj. rewrite Hf, Hprocs in Hj. destruct r as [e|x].
  - destruct Hj as [[|[|[|i]]] Hi]; simpl in Hi; try discriminate;
      injection Hi as ->; auto.
  - destruct Hj as (xs & -> & Hall).
    destruct (all_called_three _ _ _ _ Hall) as (x1 & x2 & x3 & -> & -> & -> & ->).
    eauto 10.
Qed.

(** X1: for an owned video beforeCreate always calls back, in whatever
    order the operations complete.  By then it has started the torrent
    encoder and the two ffmpeg runs, in this order, and at most one more
    call was issued after them: the write of the encoded torrent to the
    torrents directory.  The torrent is written when the hook succeeds;
    when the encoder fails nothing is written and the hook fails.  (The
    hook can call back with the error of an image before the torrent is
    written: [create_calls_back_before_the_torrent_is_written].) *)
Theorem beforeCreate_async_calls (C : Constants) (env : Env) (sched : list nat)
    (s : State) :
  isOwned (st_video s) = true →
  let run := beforeCreate_async C env sched s in
  let written torrent := [ FsWriteFile (loop_torrentPath C s) torrent ] in
  ∃ r w,
    run.1 = Some r
    ∧ calls_since s run.2 = started_calls C env s ++ w
    ∧ match createTorrent_result env (loop_videoPath C env s)
              (createTorrent_options C (st_video s)) with
      | inl _ => w = [] ∧ ∃ e, r = inl e
      | inr torrent =>
          (w = [] ∨ w = written torrent) ∧ ((∃ x, r = inr x) → w = written torrent)
      end.
Proof.
  intros Hown. cbv zeta.
  set (written torrent := [ FsWriteFile (loop_torrentPath C s) torrent ]).
  destruct (beforeCreate_async_run C env s sched Hown) as (g & r & Hr & Hf & Hj & Hs).
  destruct (beforeCreate_async C env sched s) as [o st]. cbn [fst snd] in *. subst o.
  destruct (loop_result C env s g st r Hf Hj Hs) as (p1 & p2 & p3 & H1 & H2 & H3 & Hres).
  exists r.
  inversion H1 as [Hp Hst|t HE Hp Hst|t HE HW Hp Hst|err HE Hp Hst|t err HE HW Hp Hst
                  |t HE HW Hp Hst]; subst p1.
  - exists []. subst st. split; [reflexivity|]. split.
    { apply calls_since_app. rewrite app_nil_r. reflexivity. }
    destruct r as [e|x].
    + destruct (createTorrent_result env _ _); [eauto|].
      split; [auto|]. intros [x [=]].
    + destruct Hres as (x1 & _ & _ & [=] & _).
  - exists (written t). subst st. split; [reflexivity|]. split.
    { apply calls_since_app. reflexivity. }
    rewrite HE. auto.
  - exists (written t). subst st. split; [reflexivity|]. split.
    { apply calls_since_app. reflexivity. }
    rewrite HE. auto.
  - exists []. subst st. split; [reflexivity|]. split.
    { apply calls_since_app. rewrite app_nil_r. reflexivity. }
    rewrite HE. split; [reflexivity|].
    destruct r as [e|x]; [eauto|].
    destruct Hres as (x1 & _ & _ & [=] & _).
  - exists (written t). subst st. split; [reflexivity|]. split.
    { apply calls_since_app. reflexivity. }
    rewrite HE. auto.
  - exists (written t). subst st. split; [reflexivity|]. split.
    { apply calls_since_app. reflexivity. }
    rewrite HE. auto.
Qed.

Lemma beforeCreate_async_calls_witness :
  let env := example_env example_hash None None in
  let s := initial_state owned_video in
  let run := beforeCreate_async example_constants env [ 2; 0 ] s in
  ∃ r w,
    run.1 = Some r
    ∧ calls_since s run.2 = started_calls example_constants env s ++ w
    ∧ match createTorrent_result env (loop_videoPath example_constants env s)
              (createTorrent_options example_constants (st_video s)) with
      | inl _ => w = [] ∧ ∃ e, r = inl e
      | inr torrent =>
          (w = [] ∨ w = [ FsWriteFile (loop_torrentPath example_constants s) torrent ])
          ∧ ((∃ x, r = inr x) →
             w = [ FsWriteFile (loop_torrentPath example_constants s) torrent ])
      end.
Proof.
  intros env s.
  exact (beforeCreate_async_calls example_constants env [ 2; 0 ] s eq_refl).
Defined.

Lemma image_called_eq (r r' : Outcome) : ImageStage r (Called r') → r' = r.
Proof. intros H. inversion H. reflexivity. Qed.

(** X2: when beforeCreate calls back for an owned video, the instance is
    either as it was or carries the info-hash parsed from the torrent that
    was encoded and written.  It carries the parsed info-hash when the
    hook succeeds; and when both images are generated and the torrent is
    encoded and written it carries it even if the hook fails, which is then
    the failure of the validation that follows the commit: the commit is
    not undone. *)
Theorem beforeCreate_async_commit (C : Constants) (env : Env) (sched : list nat)
    (s : State) :
  isOwned (st_video s) = true →
  let run := beforeCreate_async C env sched s in
  let v := st_video s in
  let committed torrent := set_infoHash (parseTorrent_infoHash env torrent) v in
  let written torrent :=
    createTorrent_result env (loop_videoPath C env s) (createTorrent_options C v)
      = inr torrent
    ∧ fs_writeFile_result env (loop_torrentPath C s) torrent = None in
  ∃ r,
    run.1 = Some r
    ∧ (st_video run.2 = v
       ∨ ∃ torrent, written torrent ∧ st_video run.2 = committed torrent)
    ∧ ((∃ x, r = inr x) →
       ∃ torrent, written torrent ∧ st_video run.2 = committed torrent)
    ∧ (ffmpeg_thumbnail_result env (loop_videoPath C env s) (thumbnail_options C s) = None →
       ffmpeg_thumbnail_result env (loop_videoPath C env s) (preview_options C s) = None →
       ∀ torrent, written torrent → st_video run.2 = committed torrent).
Proof.
  intros Hown. cbv zeta.
  destruct (beforeCreate_async_run C env s sched Hown) as (g & r & Hr & Hf & Hj & Hs).
  destruct (beforeCreate_async C env sched s) as [o st]. cbn [fst snd] in *. subst o.
  destruct (loop_result C env s g st r Hf Hj Hs) as (p1 & p2 & p3 & H1 & H2 & H3 & Hres).
  exists r. split; [reflexivity|].
  assert (Himg : ffmpeg_thumbnail_result env (loop_videoPath C env s) (thumbnail_options C s) = None →
                 ffmpeg_thumbnail_result env (loop_videoPath C env s) (preview_options C s) = None →
                 ∃ x1, p1 = Called x1).
  { intros Ht Hp. destruct r as [e|x].
    - destruct Hres as [->|[->| ->]]; [eauto| |].
      + apply image_called_eq in H2. unfold thumbnail_outcome in H2.
        rewrite Ht in H2. discriminate.
      + apply image_called_eq in H3. unfold preview_outcome in H3.
        rewrite Hp in H3. discriminate.
    - destruct Hres as (x1 & x2 & x3 & -> & _). eauto. }
  assert (Hok : (∃ x, r = inr x) → ∃ x1, p1 = Called (inr x1)).
  { intros [x ->]. destruct Hres as (x1 & x2 & x3 & -> & _). eauto. }
  inversion H1 as [Hp Hst|t HE Hp Hst|t HE HW Hp Hst|err HE Hp Hst|t err HE HW Hp Hst
                  |t HE HW Hp Hst]; subst p1 st; cbn [after_start after_write after_commit st_video].
  - split; [auto|]. split.
    + intros Hx. destruct (Hok Hx) as [x1 [=]].
    + intros Ht Hp. destruct (Himg Ht Hp) as [x1 [=]].
  - split; [auto|]. split.
    + intros Hx. destruct (Hok Hx) as [x1 [=]].
    + intros Ht Hp. destruct (Himg Ht Hp) as [x1 [=]].
  - split; [eauto|]. split.
    + intros Hx. destruct (Hok Hx) as [x1 [=]].
    + intros Ht Hp. destruct (Himg Ht Hp) as [x1 [=]].
  - split; [auto|]. split.
    + intros Hx. destruct (Hok Hx) as [x1 [=]].
    + intros _ _ torrent [HE' _]. rewrite HE in HE'. discriminate.
  - split; [auto|]. split.
    + intros Hx. destruct (Hok Hx) as [x1 [=]].
    + intros _ _ torrent [HE' HW']. rewrite HE in HE'. injection HE' as <-.
      rewrite HW in HW'. discriminate.
  - split; [eauto|]. split.
    + eauto.
    + intros _ _ torrent [HE' HW']. rewrite HE in HE'. injection HE' as <-. reflexivity.
Qed.

Lemma beforeCreate_async_commit_witness :
  let env := example_env example_hash None None in
  let s := (beforeValidate (initial_state owned_video)).2 in
  let run := beforeCreate_async example_constants env [ 1; 0; 0 ] s in
  ∃ r,
    run.1 = Some r
    ∧ ((∃ x, r = inr x) →
       ∃ torrent,
         (createTorrent_result env (loop_videoPath example_constants env s)
            (createTorrent_options example_constants (st_video s)) = inr torrent
          ∧ fs_writeFile_result env (loop_torrentPath example_constants s) torrent = None)
         ∧ st_video run.2
           = set_infoHash (parseTorrent_infoHash env torrent) (st_video s)).
Proof.
  intros env s.
  destruct (beforeCreate_async_commit example_constants env [ 1; 0; 0 ] s eq_refl)
    as (r & Hr & _ & Hok & _).
  exists r. split; [exact Hr|exact Hok].
Defined.

(** The outcomes of the tasks run to completion, from the answers of the
    collaborators. *)
Lemma createTorrentTask_outcome (C : Constants) (env : Env) (s : State) :
  (createTorrentTask C env (loop_videoPath C env s) s).1
  = match createTorrent_result env (loop_videoPath C env s)
            (createTorrent_options C (st_video s)) with
    | inl err => inl err
    | inr torrent =>
        match fs_writeFile_result env (loop_torrentPath C s) torrent with
        | Some err => inl err
        | None => validation_outcome C env s torrent
        end
    end.
Proof.
  unfold createTorrentTask, loop_torrentPath, validation_outcome.
  unfold mbind at 1, M_bind at 1, get_video at 1.
  unfold mbind at 1, M_bind at 1, call at 1.
  destruct (createTorrent_result env _ _) as [err|torrent]; [reflexivity|].
  unfold mbind at 1, M_bind at 1, get_video at 1. cbn [st_video].
  unfold mbind at 1, M_bind at 1, call at 1. cbn [st_video st_calls].
  destruct (fs_writeFile_result env _ _) as [err|]; [reflexivity|].
  unfold mbind at 1, M_bind at 1, modify_video at 1. cbn [st_video st_calls].
  apply validate_asCallback_video. reflexivity.
Qed.

Lemma createThumbnail_outcome (C : Constants) (env : Env) (s : State) :
  (createThumbnail C env (loop_videoPath C env s) s).1 = thumbnail_outcome C env s.
Proof. rewrite createThumbnail_state, generateImage_state. reflexivity. Qed.

Lemma createPreview_outcome (C : Constants) (env : Env) (s : State) :
  (createPreview C env (loop_videoPath C env s) s).1 = preview_outcome C env s.
Proof. rewrite createPreview_state, generateImage_state. reflexivity. Qed.

Lemma torrent_called (C : Constants) (env : Env) (s : State) (o : Outcome) (st : State) :
  TorrentStage C env s (Called o) st →
  (createTorrentTask C env (loop_videoPath C env s) s).1 = o.
Proof.
  intros H. rewrite createTorrentTask_outcome.
  inversion H as [| | |err HE|t err HE HW|t HE HW]; rewrite HE; try rewrite HW; reflexivity.
Qed.

Lemma first_error_all_ok (order : list nat) (rs : list Outcome) :
  (∀ i e, rs !! i ≠ Some (inl e)) → first_error order rs = None.
Proof.
  intros Hok. induction order as [|i order IH]; [reflexivity|]. simpl.
  destruct (rs !! i) as [[e|x]|] eqn:Hi; try exact IH.
  destruct (Hok i e Hi).
Qed.

(** X19: [parallel] and the event loop agree on a creation that
    succeeds.  Following the callbacks in any order, the hook succeeds with
    a result exactly when beforeCreate run task by task succeeds with that
    result, and the instance is then the same; an error it calls back with
    is the error of one of the tasks run to completion. *)
Theorem beforeCreate_async_agrees (C : Constants) (env : Env) (sched sched' : list nat)
    (s : State) :
  isOwned (st_video s) = true →
  let run := beforeCreate_async C env sched s in
  let done := beforeCreate C env sched' s in
  (∀ x, run.1 = Some (inr x) ↔ done.1 = inr x)
  ∧ (∀ x, run.1 = Some (inr x) → st_video run.2 = st_video done.2)
  ∧ (∀ e, run.1 = Some (inl e) →
       ∃ i, (run_tasks (beforeCreate_tasks C env (st_video s)) s).1 !! i = Some (inl e)).
Proof.
  intros Hown. cbv zeta.
  destruct (beforeCreate_async_run C env s sched Hown) as (g & r & Hr & Hf & Hj & Hs).
  destruct (beforeCreate_async C env sched s) as [o st]. cbn [fst snd] in *. subst o.
  destruct (loop_result C env s g st r Hf Hj Hs) as (p1 & p2 & p3 & H1 & H2 & H3 & Hres).
  destruct (beforeCreate_tasks_run C env s Hown) as [Hrs Hvid].
  fold (loop_videoPath C env s) in Hrs, Hvid.
  rewrite createThumbnail_outcome, createPreview_outcome in Hrs.
  rewrite (beforeCreate_owned C env sched' s Hown), parallel_unfold. cbn [fst snd].
  rewrite Hvid, Hrs.
  assert (Herr : ∀ e, r = inl e →
            ∃ i, [ (createTorrentTask C env (loop_videoPath C env s) s).1;
                   thumbnail_outcome C env s; preview_outcome C env s ] !! i
                 = Some (inl e)).
  { intros e ->. destruct Hres as [->|[->| ->]].
    - exists 0. simpl. rewrite (torrent_called _ _ _ _ _ H1). reflexivity.
    - exists 1. simpl. rewrite <- (image_called_eq _ _ H2). reflexivity.
    - exists 2. simpl. rewrite <- (image_called_eq _ _ H3). reflexivity. }
  assert (Hok : ∀ x, r = inr x →
            ∃ x1 x2 x3 torrent,
              x = JsArr [ x1; x2; x3 ]
              ∧ (createTorrentTask C env (loop_videoPath C env s) s).1 = inr x1
              ∧ thumbnail_outcome C env s = inr x2
              ∧ preview_outcome C env s = inr x3
              ∧ st = after_commit C env s torrent
              ∧ createTorrent_result env (loop_videoPath C env s)
                  (createTorrent_options C (st_video s)) = inr torrent).
  { intros x ->. destruct Hres as (x1 & x2 & x3 & -> & -> & -> & ->).
    exists x1, x2, x3.
    pose proof (torrent_called _ _ _ _ _ H1) as Ht.
    apply image_called_eq in H2. apply image_called_eq in H3.
    inversion H1 as [| | | | |t HE HW Hp Hst]. exists t.
    repeat split; auto; congruence. }
  split; [|split].
  - intros x. split.
    + intros [= ->]. destruct (Hok x eq_refl) as (x1 & x2 & x3 & t & -> & -> & -> & -> & _).
      rewrite first_error_all_ok; [reflexivity|].
      intros [|[|[|i]]] e; discriminate.
    + intros Hdone. destruct r as [e|x'].
      * exfalso. destruct (Herr e eq_refl) as [i Hi].
        destruct (first_error _ _) as [e'|] eqn:Hfe; [discriminate|].
        apply (first_error_None _ _ i e) in Hfe; [contradiction|].
        apply elem_of_app. right. apply elem_of_seq.
        apply lookup_lt_Some in Hi. unfold beforeCreate_tasks. rewrite Hown.
        simpl in *. lia.
      * destruct (Hok x' eq_refl) as (x1 & x2 & x3 & t & -> & Hx1 & Hx2 & Hx3 & _).
        rewrite Hx1, Hx2, Hx3 in Hdone.
        rewrite first_error_all_ok in Hdone by (intros [|[|[|i]]] e; discriminate).
        simpl in Hdone. injection Hdone as <-. reflexivity.
  - intros x [= ->].
    destruct (Hok x eq_refl) as (x1 & x2 & x3 & t & _ & Hx1 & _ & _ & -> & HE).
    destruct (createTorrentTask_ok C env _ s x1 Hx1) as (t' & HE' & -> & _).
    rewrite HE in HE'. injection HE' as <-. reflexivity.
  - intros e [= ->]. apply Herr. reflexivity.
Qed.

Lemma beforeCreate_async_agrees_witness :
  let env := example_env example_hash None None in
  let s := (beforeValidate (initial_state owned_video)).2 in
  let x := JsArr [ JsNull; JsStr (getThumbnailName owned_video);
                   JsStr (getPreviewName owned_video) ] in
  (beforeCreate_async example_constants env [ 2; 0 ] s).1 = Some (inr x)
  ↔ (beforeCreate example_constants env [ 1 ] s).1 = inr x.
Proof.
  intros env s x.
  exact (proj1 (beforeCreate_async_agrees example_constants env [ 2; 0 ] [ 1 ] s eq_refl) x).
Defined.

(** An image fails while the encoder is still at work: the hook calls back
    with the error before the torrent is written, the instance carrying
    the placeholder; when the encoder completes first, the torrent is
    written before the same error is called back.  The tasks go on after
    the final callback: once they have all run to completion the torrent
    is written and its info-hash is on the instance. *)
Example create_calls_back_before_the_torrent_is_written :
  let err := IOError "ffmpeg exited with code 1" in
  let env := without_ffmpeg err (example_env example_hash None None) in
  let s := (beforeValidate (initial_state owned_video)).2 in
  let torrentPath := "/var/peertube/torrents/6e9a1c0e-5c1f-4b6a-9a55-0c9d3f3b2a11.torrent" in
  beforeCreate_async example_constants env [ 1 ] s
  = (Some (inl err),
     {| st_video := set_infoHash placeholder_infoHash owned_video;
        st_calls := started_calls example_constants env s |})
  ∧ beforeCreate_async example_constants env [ 0; 1 ] s
    = (Some (inl err),
       {| st_video := set_infoHash placeholder_infoHash owned_video;
          st_calls := started_calls example_constants env s
                      ++ [ FsWriteFile torrentPath [ x64; x38; x3a ] ] |})
  ∧ (beforeCreate example_constants env [ 1 ] s).1 = inl err
  ∧ st_video (beforeCreate example_constants env [ 1 ] s).2
    = set_infoHash example_hash owned_video.
Proof. repeat split; vm_compute; reflexivity. Qed.


(** ** The creation as a whole *)

(** X3: the info-hash an owned video is given before its creation is
    ignored: the outcome of the creation, the calls it issues and the
    instance it leaves are the same whatever that info-hash was. *)
Theorem createVideo_ignores_infoHash (C : Constants) (env : Env) (sched : list nat)
    (s0 : State) (h : string) :
  isOwned (st_video s0) = true →
  createVideo C env sched (with_infoHash h s0) = createVideo C env sched s0.
Proof.
  intros Hown. rewrite !createVideo_owned_state by done. reflexivity.
Qed.

Lemma createVideo_ignores_infoHash_witness :
  let env := example_env example_hash None None in
  createVideo example_constants env [] (with_infoHash "not a hash" (initial_state owned_video))
  = createVideo example_constants env [] (initial_state owned_video).
Proof.
  intros env.
  exact (createVideo_ignores_infoHash example_constants env []
           (initial_state owned_video) "not a hash" eq_refl).
Defined.

(** X4: the creation of a mirrored video calls no collaborator and leaves
    the instance as it is, with the info-hash its pod supplied; it succeeds
    exactly when the instance passes the validation. *)
Theorem createVideo_mirrored (C : Constants) (env : Env) (sched : list nat) (s : State) :
  isOwned (st_video s) = false →
  createVideo C env sched s =
  (match validation_errors env (st_video s) with
   | [] => inr JsUndefined
   | msg :: msgs => inl (ValidationError (String.concat ", " (msg :: msgs)))
   end, s).
Proof.
  intros Hown. rewrite createVideo_unfold. cbn zeta.
  rewrite beforeValidate_state. cbn [snd]. rewrite Hown. rewrite state_eta.
  unfold validate. munfold. cbn [fst snd].
  destruct (validation_errors env (st_video s)) as [|msg msgs]; cbn [fst]; [|done].
  unfold beforeCreate. munfold. by rewrite Hown.
Qed.

Lemma createVideo_mirrored_witness :
  let env := example_env example_hash None None in
  createVideo example_constants env [] (initial_state mirrored_video)
  = (inr JsUndefined, initial_state mirrored_video).
Proof.
  intros env.
  exact (createVideo_mirrored example_constants env [] (initial_state mirrored_video) eq_refl).
Defined.

(** ** Creation and destruction *)

Lemma afterDestroy_calls_since (C : Constants) (env : Env) (sched : list nat) (s : State) :
  calls_since s (afterDestroy C env sched s).2 = afterDestroy_calls C env (st_video s).
Proof.
  apply calls_since_app. by destruct (afterDestroy_state C env sched s) as [-> _].
Qed.

Lemma beforeCreate_video_names (C : Constants) (env : Env) (sched : list nat) (s : State) :
  isOwned (st_video s) = true →
  let v' := st_video (beforeCreate C env sched s).2 in
  isOwned v' = true
  ∧ getVideoFilename v' = getVideoFilename (st_video s)
  ∧ getThumbnailName v' = getThumbnailName (st_video s)
  ∧ getPreviewName v' = getPreviewName (st_video s)
  ∧ getTorrentName v' = getTorrentName (st_video s).
Proof.
  intros Hown v'. unfold v'. rewrite beforeCreate_state by done. cbn [st_video].
  destruct (createTorrentTask_video C env
              (pathUtils_join env (CONFIG_STORAGE_VIDEOS_DIR C)
                 (getVideoFilename (st_video s))) s) as [->|[h ->]];
    by rewrite ?Hown.
Qed.

(** X6: the torrent file that the creation of an owned video writes is the
    file that its destruction unlinks, although the info-hash of the
    instance has changed in between. *)
Theorem torrent_written_is_unlinked (C : Constants) (env env' : Env)
    (sched sched' : list nat) (s : State) (path : string) (data : list byte) :
  isOwned (st_video s) = true →
  let s' := (beforeCreate C env sched s).2 in
  FsWriteFile path data ∈ calls_since s s' →
  FsUnlink path ∈ calls_since s' (afterDestroy C env' sched' s').2.
Proof.
  intros Hown s' Hin.
  unfold calls_since in Hin. unfold s' in Hin.
  rewrite beforeCreate_issued_calls, drop_app_length in Hin by done.
  rewrite afterDestroy_calls_since. unfold afterDestroy_calls.
  destruct (beforeCreate_video_names C env sched s Hown) as (Hown' & _ & _ & _ & Ht).
  fold s' in Hown', Ht. rewrite Hown', Ht.
  unfold beforeCreate_issued in Hin.
  apply elem_of_cons in Hin as [Hin|Hin]; [done|].
  apply elem_of_app in Hin as [Hin|Hin].
  - destruct (createTorrent_result env _ _) as [err|torrent];
      [by apply elem_of_nil in Hin|].
    apply list_elem_of_singleton in Hin. injection Hin as -> ->.
    right. apply elem_of_app. left. rewrite !elem_of_cons. auto.
  - rewrite !elem_of_cons in Hin. destruct Hin as [Hin|[Hin|Hin]]; try done.
    by apply elem_of_nil in Hin.
Qed.

Lemma torrent_written_is_unlinked_witness :
  let env := example_env example_hash None None in
  let s := initial_state owned_video in
  let s' := (beforeCreate example_constants env [] s).2 in
  FsUnlink "/var/peertube/torrents/6e9a1c0e-5c1f-4b6a-9a55-0c9d3f3b2a11.torrent"
    ∈ calls_since s' (afterDestroy example_constants env [] s').2.
Proof.
  intros env s s'.
  apply (torrent_written_is_unlinked example_constants env env [] [] s _
           [ x64; x38; x3a ] eq_refl).
  apply list_elem_of_In. vm_compute. right. left. reflexivity.
Defined.

(** X7: provided that path.join leaves the three paths of this video as
    the removals spell them (the directory followed by the file name, which
    is what path.join gives for a directory that ends with a separator and a
    plain file name), every file that the creation of an owned video
    produces, and the media file it encodes, is unlinked by the destruction
    of that video. *)
Theorem artifacts_created_are_unlinked (C : Constants) (env env' : Env)
    (sched sched' : list nat) (s : State) :
  isOwned (st_video s) = true →
  let v := st_video s in
  pathUtils_join env (CONFIG_STORAGE_VIDEOS_DIR C) (getVideoFilename v)
    = CONFIG_STORAGE_VIDEOS_DIR C +:+ getVideoFilename v →
  pathUtils_join env (CONFIG_STORAGE_THUMBNAILS_DIR C) (getThumbnailName v)
    = CONFIG_STORAGE_THUMBNAILS_DIR C +:+ getThumbnailName v →
  pathUtils_join env (CONFIG_STORAGE_PREVIEWS_DIR C) (getPreviewName v)
    = CONFIG_STORAGE_PREVIEWS_DIR C +:+ getPreviewName v →
  let s' := (beforeCreate C env sched s).2 in
  let unlinked := calls_since s' (afterDestroy C env' sched' s').2 in
  (∀ c path, c ∈ calls_since s s' → artifact_path env c = Some path →
     FsUnlink path ∈ unlinked)
  ∧ (∀ videoPath options, CreateTorrent videoPath options ∈ calls_since s s' →
     FsUnlink videoPath ∈ unlinked).
Proof.
  intros Hown v Hjv Hjt Hjp s' unlinked.
  assert (calls_since s s' = beforeCreate_issued C env v) as Hissued.
  { apply calls_since_app. by apply beforeCreate_issued_calls. }
  assert (unlinked = afterDestroy_calls C env' (st_video s')) as Hunlinked
    by apply afterDestroy_calls_since.
  destruct (beforeCreate_video_names C env sched s Hown) as (Hown' & Hf & Hth & Hp & Ht).
  fold s' v in Hown', Hf, Hth, Hp, Ht.
  rewrite Hissued, Hunlinked. unfold afterDestroy_calls, beforeCreate_issued.
  rewrite Hown', Hf, Hth, Hp, Ht, Hjv.
  split.
  - intros c path Hin Hpath.
    apply elem_of_cons in Hin as [->|Hin]; [done|].
    apply elem_of_app in Hin as [Hin|Hin].
    + destruct (createTorrent_result env _ _) as [err|torrent];
        [by apply elem_of_nil in Hin|].
      apply list_elem_of_singleton in Hin as ->. cbn in Hpath.
      injection Hpath as <-.
      right. apply elem_of_app. left. rewrite !elem_of_cons. auto.
    + rewrite !elem_of_cons in Hin. destruct Hin as [->|[->|Hin]].
      * cbn in Hpath. rewrite Hjt in Hpath. injection Hpath as <-. left.
      * cbn in Hpath. rewrite Hjp in Hpath. injection Hpath as <-.
        right. apply elem_of_app. left. rewrite !elem_of_cons. auto.
      * by apply elem_of_nil in Hin.
  - intros videoPath options Hin.
    apply elem_of_cons in Hin as [Hin|Hin].
    + injection Hin as -> _.
      right. apply elem_of_app. left. rewrite !elem_of_cons. auto.
    + apply elem_of_app in Hin as [Hin|Hin].
      * destruct (createTorrent_result env _ _) as [err|torrent];
          [by apply elem_of_nil in Hin|].
        by apply list_elem_of_singleton in Hin.
      * rewrite !elem_of_cons in Hin. destruct Hin as [Hin|[Hin|Hin]]; try done.
        by apply elem_of_nil in Hin.
Qed.

Lemma artifacts_created_are_unlinked_witness :
  let env := example_env example_hash None None in
  let s := initial_state owned_video in
  let s' := (beforeCreate example_constants env [] s).2 in
  FsUnlink "/var/peertube/previews/6e9a1c0e-5c1f-4b6a-9a55-0c9d3f3b2a11.jpg"
    ∈ calls_since s' (afterDestroy example_constants env [] s').2.
Proof.
  intros env s s'.
  destruct (artifacts_created_are_unlinked example_constants env env [] [] s
              eq_refl eq_refl eq_refl eq_refl) as [Hart _].
  apply (Hart (FfmpegThumbnail
                 "/var/peertube/videos/6e9a1c0e-5c1f-4b6a-9a55-0c9d3f3b2a11.mp4"
                 {| th_filename := "6e9a1c0e-5c1f-4b6a-9a55-0c9d3f3b2a11.jpg";
                    th_count := 1; th_folder := "/var/peertube/previews/";
                    th_size := None |})).
  - apply list_elem_of_In. vm_compute. right. right. right. left. reflexivity.
  - reflexivity.
Defined.

(** ** Thumbnails across pods *)

Lemma generateThumbnailFromData_state (C : Constants) (env : Env)
    (thumbnailData : string) (s : State) :
  let path := CONFIG_STORAGE_THUMBNAILS_DIR C +:+ getThumbnailName (st_video s) in
  let data := Buffer_from_binary thumbnailData in
  generateThumbnailFromData C env thumbnailData s =
  (match fs_writeFile_result env path data with
   | Some err => inl err
   | None => inr (JsStr (getThumbnailName (st_video s)))
   end,
   {| st_video := st_video s; st_calls := st_calls s ++ [ FsWriteFile path data ] |}).
Proof.
  unfold generateThumbnailFromData. munfold. cbn.
  by destruct (fs_writeFile_result env _ _).
Qed.

(** X8: the thumbnail travels unchanged from the pod that owns a video to
    a pod that mirrors it: when toAddRemoteJSON yields a representation, the
    bytes that generateThumbnailFromData writes from its [thumbnailData] are
    the bytes that were read from the thumbnail file of the owner, and they
    are written under the local id of the mirror. *)
Theorem thumbnail_round_trip (C C' : Constants) (env env' : Env) (s s' : State)
    (add : JsObject) :
  (toAddRemoteJSON C env s).1 = inr add →
  ∃ data thumbnailData,
    fs_readFile_result env
      (pathUtils_join env (CONFIG_STORAGE_THUMBNAILS_DIR C) (getThumbnailName (st_video s)))
      = inr data
    ∧ js_get "thumbnailData" add = Some (JsStr thumbnailData)
    ∧ calls_since s' (generateThumbnailFromData C' env' thumbnailData s').2
      = [ FsWriteFile
            (CONFIG_STORAGE_THUMBNAILS_DIR C' +:+ (id (st_video s') +:+ ".jpg")) data ].
Proof.
  unfold toAddRemoteJSON. munfold. cbn.
  destruct (fs_readFile_result env _) as [err|data] eqn:Hread; [done|].
  cbn. intros [= <-]. exists data, (toString_binary data).
  split; [done|]. split; [done|].
  apply calls_since_app. rewrite generateThumbnailFromData_state. cbn.
  by rewrite Buffer_from_binary_toString_binary.
Qed.

Lemma thumbnail_round_trip_witness :
  let env := example_env example_hash None None in
  ∃ thumbnailData,
    calls_since (initial_state mirrored_video)
      (generateThumbnailFromData example_constants env thumbnailData
         (initial_state mirrored_video)).2
    = [ FsWriteFile "/var/peertube/thumbnails/0b7d2f64-1111-4c7e-8a3e-2f6d0e9c4b22.jpg"
          [ xff; xd8; x00; x80 ] ].
Proof.
  intros env.
  destruct (thumbnail_round_trip example_constants example_constants env env
              (initial_state owned_video) (initial_state mirrored_video) _ eq_refl)
    as (data & thumbnailData & Hread & _ & Hwrite).
  exists thumbnailData. rewrite Hwrite.
  injection Hread as <-. reflexivity.
Defined.

(** X9: the thumbnail that generateThumbnailFromData writes for a mirrored
    video is the one file that the destruction of that video unlinks: the
    destruction of a mirror unlinks nothing else and notifies no peer. *)
Theorem mirrored_thumbnail_is_unlinked (C : Constants) (env env' : Env)
    (sched : list nat) (thumbnailData : string) (s : State) :
  isOwned (st_video s) = false →
  let s' := (generateThumbnailFromData C env thumbnailData s).2 in
  ∃ path,
    calls_since s s' = [ FsWriteFile path (Buffer_from_binary thumbnailData) ]
    ∧ calls_since s' (afterDestroy C env' sched s').2 = [ FsUnlink path ].
Proof.
  intros Hown s'. exists (CONFIG_STORAGE_THUMBNAILS_DIR C +:+ getThumbnailName (st_video s)).
  unfold s'. rewrite generateThumbnailFromData_state. split.
  - by apply calls_since_app.
  - rewrite afterDestroy_calls_since. unfold afterDestroy_calls. cbn [snd st_video].
    by rewrite Hown.
Qed.

Lemma mirrored_thumbnail_is_unlinked_witness :
  let env := example_env example_hash None None in
  let s := initial_state mirrored_video in
  let s' := (generateThumbnailFromData example_constants env "JFIF" s).2 in
  ∃ path, calls_since s' (afterDestroy example_constants env [] s').2 = [ FsUnlink path ].
Proof.
  intros env s s'.
  destruct (mirrored_thumbnail_is_unlinked example_constants env env [] "JFIF" s eq_refl)
    as (path & _ & Hunlink).
  by exists path.
Defined.

(** ** Destruction *)

Lemma afterDestroy_results (C : Constants) (env : Env) (s : State) :
  let v := st_video s in
  (run_tasks (afterDestroy_tasks C env v) s).1 =
  outcome_of_err (fs_unlink_result env (CONFIG_STORAGE_THUMBNAILS_DIR C +:+ getThumbnailName v))
  :: (if isOwned v then
        [ outcome_of_err
            (fs_unlink_result env (CONFIG_STORAGE_VIDEOS_DIR C +:+ getVideoFilename v));
          outcome_of_err
            (fs_unlink_result env (CONFIG_STORAGE_TORRENTS_DIR C +:+ getTorrentName v));
          outcome_of_err
            (fs_unlink_result env (CONFIG_STORAGE_PREVIEWS_DIR C +:+ getPreviewName v));
          inr JsUndefined ]
      else []).
Proof.
  intros v. unfold afterDestroy_tasks. fold v.
  destruct (isOwned v); cbn [app].
  - unfold removeThumbnail, removeFile, removeTorrent, removePreview,
      notifyFriendsTask, removeVideoToFriends.
    run_hook. fold v.
    by destruct (friends_broadcast_result env _).
  - unfold removeThumbnail. run_hook. reflexivity.
Qed.

Lemma outcome_of_err_ok (r : option Error) :
  (∀ e, outcome_of_err r ≠ inl e) ↔ r = None.
Proof.
  destruct r as [e|]; cbn; split; try done.
  intros H. by destruct (H e).
Qed.

(** The unlinks of afterDestroy. *)
Lemma afterDestroy_unlinks (C : Constants) (env : Env) (v : Video) (path : string) :
  FsUnlink path ∈ afterDestroy_calls C env v
  ↔ path ∈ (CONFIG_STORAGE_THUMBNAILS_DIR C +:+ getThumbnailName v)
           :: (if isOwned v then
                 [ CONFIG_STORAGE_VIDEOS_DIR C +:+ getVideoFilename v;
                   CONFIG_STORAGE_TORRENTS_DIR C +:+ getTorrentName v;
                   CONFIG_STORAGE_PREVIEWS_DIR C +:+ getPreviewName v ]
               else []).
Proof.
  unfold afterDestroy_calls. destruct (isOwned v).
  - rewrite !elem_of_cons, elem_of_app, !elem_of_cons, !elem_of_nil.
    split.
    + intros [H|[[H|[H|[H|[H|H]]]]|Hlog]]; try done.
      * injection H as ->. auto.
      * injection H as ->. auto.
      * injection H as ->. auto.
      * injection H as ->. auto.
      * destruct (friends_broadcast_result env _); [|by apply elem_of_nil in Hlog].
        by apply list_elem_of_singleton in Hlog.
    + intros [->|[->|[->|[->|H]]]]; auto 10.
  - rewrite !elem_of_cons, !elem_of_nil.
    split.
    + intros [H|H]; [|done]. injection H as ->. auto.
    + intros [->|H]; [auto|done].
Qed.

(** X10: the destruction issues the unlink of the thumbnail and, for an
    owned video, those of the media file, the torrent and the preview,
    whatever the file system answers to any of them; and it reports success
    exactly when all of these unlinks have succeeded. *)
Theorem afterDestroy_succeeds_iff (C : Constants) (env : Env) (sched : list nat) (s : State) :
  let v := st_video s in
  let unlinks :=
    (CONFIG_STORAGE_THUMBNAILS_DIR C +:+ getThumbnailName v)
    :: (if isOwned v then
          [ CONFIG_STORAGE_VIDEOS_DIR C +:+ getVideoFilename v;
            CONFIG_STORAGE_TORRENTS_DIR C +:+ getTorrentName v;
            CONFIG_STORAGE_PREVIEWS_DIR C +:+ getPreviewName v ]
        else []) in
  (∀ path, FsUnlink path ∈ calls_since s (afterDestroy C env sched s).2 ↔ path ∈ unlinks)
  ∧ ((∃ x, (afterDestroy C env sched s).1 = inr x)
     ↔ ∀ path, path ∈ unlinks → fs_unlink_result env path = None).
Proof.
  intros v unlinks. split.
  { intros path. rewrite afterDestroy_calls_since. apply afterDestroy_unlinks. }
  unfold afterDestroy at 1. munfold. cbn [fst].
  rewrite parallel_ok_iff, afterDestroy_results. fold v. unfold unlinks.
  assert (∀ r e, Some (outcome_of_err r) ≠ Some (inl e) → outcome_of_err r ≠ inl e)
    as Hsome by (intros r e H Heq; apply H; by rewrite Heq).
  destruct (isOwned v); split.
  - intros Hall path Hin.
    pose proof (Hall 0) as H0. pose proof (Hall 1) as H1.
    pose proof (Hall 2) as H2. pose proof (Hall 3) as H3. cbn in H0, H1, H2, H3.
    rewrite !elem_of_cons in Hin.
    destruct Hin as [->|[->|[->|[->|Hin]]]]; [..|by apply elem_of_nil in Hin];
      apply outcome_of_err_ok; intros e; apply Hsome; auto.
  - intros Hall i e.
    destruct i as [|[|[|[|[|i]]]]]; cbn; try done;
      match goal with
      | |- Some (outcome_of_err (fs_unlink_result env ?p)) ≠ _ =>
          rewrite (Hall p) by (rewrite !elem_of_cons; auto); done
      end.
  - intros Hall path Hin.
    apply elem_of_cons in Hin as [->|Hin]; [|by apply elem_of_nil in Hin].
    apply outcome_of_err_ok. intros e He. apply (Hall 0 e). cbn. by rewrite He.
  - intros Hall i e.
    destruct i as [|i]; cbn; [|done].
    rewrite (Hall (CONFIG_STORAGE_THUMBNAILS_DIR C +:+ getThumbnailName v)); [done|left].
Qed.

(** ** Magnet descriptor and torrent *)

(** X11: for an owned video the magnet URI advertises the tracker and the
    web seed with which its torrent is encoded: the announce of the magnet
    is the one entry of the announce list of createTorrent, and the URL
    lists are equal. *)
Theorem magnet_agrees_with_torrent (C : Constants) (env : Env) (v : Video) :
  isOwned v = true →
  let options := createTorrent_options C v in
  ∃ announce,
    to_announceList options = [ [ announce ] ]
    ∧ generateMagnetUri C env v =
        magnetUtil_encode env
          {| mh_xs := CONFIG_WEBSERVER_URL C +:+ STATIC_PATHS_TORRENTS C +:+ getTorrentName v;
             mh_announce := announce;
             mh_urlList := to_urlList options;
             mh_infoHash := infoHash v;
             mh_name := name v |}.
Proof.
  intros Hown options. eexists. split; [reflexivity|].
  unfold generateMagnetUri. rewrite Hown. cbn [to_urlList createTorrent_options options].
  by rewrite !string_app_assoc.
Qed.

Lemma magnet_agrees_with_torrent_witness :
  ∃ announce,
    to_announceList (createTorrent_options example_constants owned_video) = [ [ announce ] ]
    ∧ announce = "ws://localhost:9000/tracker/socket".
Proof.
  destruct (magnet_agrees_with_torrent example_constants
              (example_env example_hash None None) owned_video eq_refl)
    as (announce & Hannounce & _).
  exists announce. split; [exact Hannounce|].
  by injection Hannounce as <-.
Defined.

(** ** Names *)

(** X12: the names computed on a pod that mirrors a video are the names
    computed on the pod that owns it: a mirror whose remoteId and extname are
    those of the representation the owner sends names the video file, the
    torrent and the preview as the owner does. *)
Theorem mirror_names_follow_owner (owner mirror : Video) (r e : string) :
  isOwned owner = true →
  js_get "remoteId" (toUpdateRemoteJSON owner) = Some (JsStr r) →
  js_get "extname" (toUpdateRemoteJSON owner) = Some (JsStr e) →
  remoteId mirror = Some r →
  extname mirror = e →
  getVideoFilename mirror = getVideoFilename owner
  ∧ getTorrentName mirror = getTorrentName owner
  ∧ getPreviewName mirror = getPreviewName owner.
Proof.
  intros Hown [= <-] [= <-] Hr He.
  unfold getVideoFilename, getTorrentName, getPreviewName, isOwned in *.
  rewrite Hr, He. by destruct (remoteId owner).
Qed.

Lemma mirror_names_follow_owner_witness :
  let mirror :=
    {| id := "0b7d2f64-1111-4c7e-8a3e-2f6d0e9c4b22"; name := "Demo"; extname := ".mp4";
       remoteId := Some "6e9a1c0e-5c1f-4b6a-9a55-0c9d3f3b2a11"; description := "A demo";
       infoHash := example_hash; duration := 120;
       createdAt := 1480000000000; updatedAt := 1480000000000;
       Author := remote_author; Tags := [] |} in
  getVideoFilename mirror = "6e9a1c0e-5c1f-4b6a-9a55-0c9d3f3b2a11.mp4".
Proof.
  intros mirror.
  destruct (mirror_names_follow_owner owned_video mirror
              "6e9a1c0e-5c1f-4b6a-9a55-0c9d3f3b2a11" ".mp4"
              eq_refl eq_refl eq_refl eq_refl eq_refl) as [-> _].
  reflexivity.
Defined.

(** X13: file names identify videos.  Two videos with the same thumbnail
    name have the same id; two owned videos with the same torrent name, the
    same preview name, or the same extname and video file name have the
    same id; two mirrored videos with the same torrent name have the same
    remoteId. *)
Theorem file_names_identify_videos (v1 v2 : Video) :
  (getThumbnailName v1 = getThumbnailName v2 → id v1 = id v2)
  ∧ (isOwned v1 = true → isOwned v2 = true →
       (getTorrentName v1 = getTorrentName v2 → id v1 = id v2)
       ∧ (getPreviewName v1 = getPreviewName v2 → id v1 = id v2)
       ∧ (extname v1 = extname v2 → getVideoFilename v1 = getVideoFilename v2 →
          id v1 = id v2))
  ∧ (isOwned v1 = false → isOwned v2 = false →
       getTorrentName v1 = getTorrentName v2 → remoteId v1 = remoteId v2).
Proof.
  split; [|split].
  - apply string_app_inj_r.
  - intros H1 H2. unfold getTorrentName, getPreviewName, getVideoFilename.
    rewrite H1, H2. split; [|split].
    + apply string_app_inj_r.
    + apply string_app_inj_r.
    + intros ->. apply string_app_inj_r.
  - unfold getTorrentName, isOwned.
    destruct (remoteId v1) as [r1|], (remoteId v2) as [r2|]; try done.
    intros _ _ H. f_equal. by apply string_app_inj_r in H.
Qed.

(** ** Listing and loading *)

Lemma where_admits_singleton (sql_like : string → string → bool)
    (column : string) (c : FindCond) (v : Video) :
  where_admits sql_like {[ column := c ]} v =
  match video_column column v with
  | Some x => find_cond_holds sql_like c x
  | None => false
  end.
Proof.
  unfold where_admits. rewrite map_to_list_singleton. cbn.
  destruct (video_column column v); by rewrite ?andb_true_r.
Qed.

Lemma find_admits_owned (sql_like : string → string → bool) (v : Video) :
  find_admits sql_like listOwnedAndPopulateAuthorAndTags_query v = isOwned v.
Proof.
  unfold find_admits, listOwnedAndPopulateAuthorAndTags_query. cbn.
  rewrite where_admits_singleton. cbn. unfold isOwned.
  by destruct (remoteId v).
Qed.

(** X14: listOwnedAndPopulateAuthorAndTags keeps the videos of the table
    for which isOwned() holds, and no other: the query on a null remoteId
    and the method agree on what an owned video is. *)
Theorem listOwned_iff_isOwned (sql_like : string → string → bool)
    (db : list Video) (v : Video) :
  v ∈ listOwnedAndPopulateAuthorAndTags sql_like db ↔ v ∈ db ∧ isOwned v = true.
Proof.
  unfold listOwnedAndPopulateAuthorAndTags, findAll.
  rewrite list_elem_of_filter, find_admits_owned. tauto.
Qed.

(** X15: listOwnedByAuthor keeps the owned videos of the table whose
    author has the given name, and no other; it never lists a mirrored
    video, even of an author of that name. *)
Theorem listOwnedByAuthor_spec (sql_like : string → string → bool)
    (author : string) (db : list Video) (v : Video) :
  v ∈ listOwnedByAuthor sql_like author db
  ↔ v ∈ db ∧ isOwned v = true ∧ Author_name (Author v) = author.
Proof.
  unfold listOwnedByAuthor, findAll. rewrite list_elem_of_filter.
  unfold find_admits, listOwnedByAuthor_query. cbn.
  rewrite where_admits_singleton. cbn.
  unfold authorInclude_admits, column_holds. cbn.
  rewrite lookup_singleton_eq. cbn. unfold isOwned.
  destruct (remoteId v); cbn; rewrite ?andb_true_r.
  - split; [by intros [? _]|by intros (_ & ? & _)].
  - rewrite bool_decide_eq_true. split.
    + intros [[= ->] Hin]. done.
    + intros (Hin & _ & ->). done.
Qed.

(** X16: the video that loadByHostAndRemoteId finds is a mirrored video of
    the table with the given remoteId whose author belongs to a pod with the
    given host; an owned video is never found, and nothing is found exactly
    when the table holds no such video. *)
Theorem loadByHostAndRemoteId_spec (sql_like : string → string → bool)
    (fromHost remoteId_ : string) (db : list Video) :
  let wanted (v : Video) :=
    remoteId v = Some remoteId_
    ∧ ∃ pod, Author_Pod (Author v) = Some pod ∧ Pod_host pod = fromHost in
  match loadByHostAndRemoteId sql_like fromHost remoteId_ db with
  | Some v => v ∈ db ∧ wanted v ∧ isOwned v = false
  | None => ∀ v, v ∈ db → ¬ wanted v
  end.
Proof.
  intros wanted.
  assert (∀ v, find_admits sql_like (loadByHostAndRemoteId_query fromHost remoteId_) v = true
               ↔ wanted v) as Hadmits.
  { intros v. unfold find_admits, loadByHostAndRemoteId_query, wanted. cbn.
    rewrite where_admits_singleton. cbn.
    unfold authorInclude_admits, podInclude_admits, column_holds. cbn.
    destruct (remoteId v) as [r|]; cbn.
    - destruct (Author_Pod (Author v)) as [pod|]; cbn.
      + rewrite lookup_singleton_eq. cbn.
        rewrite !andb_true_r, andb_true_iff, !bool_decide_eq_true.
        split.
        * intros [[= ->] [= ->]]. eauto.
        * intros [[= ->] (pod' & [= <-] & ->)]. done.
      + rewrite andb_false_r. split; [done|]. by intros [_ (pod & ? & _)].
    - split; [done|]. by intros [? _]. }
  unfold loadByHostAndRemoteId, findOne, findAll.
  destruct (filter _ db) as [|v l] eqn:Hfilter; cbn.
  - intros v Hin Hwanted.
    assert (v ∈ filter (λ v, find_admits sql_like
                               (loadByHostAndRemoteId_query fromHost remoteId_) v = true) db)
      as Hv by (apply list_elem_of_filter; split; [by apply Hadmits|done]).
    rewrite Hfilter in Hv. by apply elem_of_nil in Hv.
  - assert (v ∈ filter (λ v, find_admits sql_like
                               (loadByHostAndRemoteId_query fromHost remoteId_) v = true) db)
      as Hv by (rewrite Hfilter; left).
    apply list_elem_of_filter in Hv as [Hv Hin]. apply Hadmits in Hv.
    split; [done|]. split; [done|].
    destruct Hv as [Hr _]. unfold isOwned. by rewrite Hr.
Qed.

Lemma find_admits_by_id (sql_like : string → string → bool) (id_ : string)
    (o : FindOptions) (v : Video) :
  match fo_include_Author o with
  | Some ai => ∀ a, authorInclude_admits sql_like ai a = true
  | None => True
  end →
  find_admits sql_like
    {| fo_where := {[ "id" := FindIs (CondEq (Some id_)) ]};
       fo_include_Author := fo_include_Author o;
       fo_include_Tag := fo_include_Tag o |} v
  = bool_decide (id v = id_).
Proof.
  intros Hinc. unfold find_admits. cbn.
  rewrite where_admits_singleton. cbn.
  destruct (fo_include_Author o) as [ai|]; rewrite ?Hinc, andb_true_r;
    apply bool_decide_ext; split; congruence.
Qed.

(** X17: load, loadAndPopulateAuthor and loadAndPopulateAuthorAndPodAndTags
    find the same video: the first of the table with the given id, whether
    or not its author belongs to a pod (the pod is not required), and
    nothing exactly when the table holds no video with that id. *)
Theorem loaders_agree (sql_like : string → string → bool) (id_ : string)
    (db : list Video) :
  loadAndPopulateAuthor sql_like id_ db = load sql_like id_ db
  ∧ loadAndPopulateAuthorAndPodAndTags sql_like id_ db = load sql_like id_ db
  ∧ load sql_like id_ db = head (filter (λ v, id v = id_) db)
  ∧ match load sql_like id_ db with
    | Some v => v ∈ db ∧ id v = id_
    | None => ∀ v, v ∈ db → id v ≠ id_
    end.
Proof.
  assert (∀ o,
            match fo_include_Author o with
            | Some ai => ∀ a, authorInclude_admits sql_like ai a = true
            | None => True
            end →
            findById sql_like id_ o db = head (filter (λ v, id v = id_) db)) as Hfind.
  { intros o Hinc. unfold findById, findOne, findAll. f_equal.
    apply list_filter_iff. intros v.
    rewrite find_admits_by_id by done. apply bool_decide_eq_true. }
  assert (load sql_like id_ db = head (filter (λ v, id v = id_) db)) as Hload
    by (by apply Hfind).
  split; [|split; [|split; [done|]]].
  - rewrite Hload. by apply Hfind.
  - rewrite Hload. by apply Hfind.
  - rewrite Hload. destruct (filter _ db) as [|v l] eqn:Hfilter; cbn.
    + intros v Hin Hid.
      assert (v ∈ filter (λ v, id v = id_) db) as Hv by by apply list_elem_of_filter.
      rewrite Hfilter in Hv. by apply elem_of_nil in Hv.
    + assert (v ∈ filter (λ v, id v = id_) db) as Hv by (rewrite Hfilter; left).
      apply list_elem_of_filter in Hv as [Hv Hin]. done.
Qed.

(** X18: listForApi hides no video: its query carries no condition and its
    includes admit every video, with or without a pod; it pages and sorts as
    the search does for the same start, count and sort, and it hands back
    what the storage answers. *)
Theorem listForApi_lists_every_video (env : Env) (start count : Z) (sort : string) :
  let q := listForApi_query env start count sort in
  q_where q = ∅
  ∧ (∀ (sql_like : string → string → bool) (v : Video), joins_admit sql_like q v = true)
  ∧ (∀ value field,
       let q' := search_query env value field start count sort in
       q_offset q' = q_offset q ∧ q_limit q' = q_limit q
       ∧ q_distinct q' = q_distinct q ∧ q_order q' = q_order q)
  ∧ listForApi env start count sort = sequelize_findAndCountAll env q.
Proof.
  intros q. split; [done|]. split; [done|]. split; [done|].
  unfold listForApi. fold q.
  by destruct (sequelize_findAndCountAll env q) as [err|[rows total]].
Qed.
